(** * systems-ts: lexer, formulas, dependency ordering and simulation

    A shallow embedding of [src/lexer.ts], [src/algos.ts], [src/models.ts]
    and [src/parse.ts], and the properties of the specification proved,
    or refuted, on it.

    Conventions of the embedding.
    - A JavaScript [number] is an IEEE 754 binary64 value: Rocq's
      primitive [float].  [undefined], which every arithmetic operator
      and every comparison of the code converts to NaN, is represented
      by NaN.
    - A thrown exception is the [Err] result of the [res] monad.
    - A plain object used as a map ([StateMap], [Graph]) is an
      association list in property order; arrays are lists.
    - Objects that the code updates in place (the inward graph of
      [findCycles], the stocks of a model during parsing) are passed
      and returned explicitly. *)

From Stdlib Require Import ZArith List String Ascii Bool Lia Floats.
From Stdlib Require Import DecimalString Permutation Sorted Relations.
Import ListNotations.

Set Warnings "-register-all".

(** ** Results and exceptions *)

(** The payloads kept are the ones the code's callers and the
    specification look at. *)
Inductive Error : Type :=
  | IllegalStockName (stockName : string)
  | IllegalSourceStock (source : string)
  | CircularReferences (cycle graph : list (string * list string))
  | InvalidFormula (msg : string)
  | ParseError (lineNumber : nat) (exception : Error)
  | InvalidParameters (txt : string) (lineNumber : nat)
  | ConflictingValues (stockName : string) (lineNumber : nat)
  | UnknownFlowType (flowType : string) (lineNumber : nat)
  | PlainError (message : string)
  | TypeError.

Inductive res (A : Type) : Type :=
  | Ok (a : A)
  | Err (e : Error).
Arguments Ok {A} a.
Arguments Err {A} e.

Definition bind {A B : Type} (r : res A) (k : A -> res B) : res B :=
  match r with
  | Ok a => k a
  | Err e => Err e
  end.

Notation "x <- r ;; k" := (bind r (fun x => k))
  (at level 61, r at next level, right associativity).
Notation "' p <- r ;; k" := (bind r (fun p => k))
  (at level 61, p pattern, r at next level, right associativity).

(** ** JavaScript built-ins used by the code *)

Module js.

Definition number := float.

Definition POSITIVE_INFINITY : number := infinity.

(** The number nearest to an integer (round to nearest, ties to even). *)
Definition of_Z (z : Z) : number :=
  SF2Prim (binary_normalize prec emax z 0 false).

(** [isNaN] *)
Definition isNaN (x : number) : bool := is_nan x.

(** [Math.min] and [Math.max] of two numbers: NaN if either is NaN,
    and -0 is below +0. *)
Definition Math_min (a b : number) : number :=
  if is_nan a || is_nan b then nan
  else if (a <? b)%float then a
  else if (b <? a)%float then b
  else if get_sign a then a else b.

Definition Math_max (a b : number) : number :=
  if is_nan a || is_nan b then nan
  else if (a <? b)%float then b
  else if (b <? a)%float then a
  else if get_sign a then b else a.

(** [Math.floor]: a number with a non-negative binary exponent is an
    integer already; otherwise the mantissa is shifted and a negative
    inexact quotient steps one further down. *)
Definition Math_floor (x : number) : number :=
  match Prim2SF x with
  | S754_finite s m e =>
      if (0 <=? e)%Z then x
      else
        let q := Z.shiftr (Zpos m) (- e) in
        let exact := (Z.shiftl q (- e) =? Zpos m)%Z in
        if s then (if exact then of_Z (- q) else of_Z (- (q + 1)))
        else of_Z q
  | _ => x
  end.

(** *** Strings *)

Definition is_space (c : ascii) : bool :=
  match nat_of_ascii c with
  | 9 | 10 | 11 | 12 | 13 | 32 => true
  | _ => false
  end.

Definition is_digit (c : ascii) : bool :=
  let n := nat_of_ascii c in (48 <=? n) && (n <=? 57).

Definition is_letter (c : ascii) : bool :=
  let n := nat_of_ascii c in
  ((65 <=? n) && (n <=? 90)) || ((97 <=? n) && (n <=? 122)).

Definition digit_value (c : ascii) : Z := Z.of_nat (nat_of_ascii c - 48).

Fixpoint rev_string (s acc : string) : string :=
  match s with
  | EmptyString => acc
  | String c s' => rev_string s' (String c acc)
  end.

Fixpoint trimStart (s : string) : string :=
  match s with
  | EmptyString => EmptyString
  | String c s' => if is_space c then trimStart s' else s
  end.

Definition trimEnd (s : string) : string :=
  rev_string (trimStart (rev_string s EmptyString)) EmptyString.

Definition trim (s : string) : string := trimEnd (trimStart s).

Definition startsWith (s p : string) : bool := String.prefix p s.

Definition endsWith (s p : string) : bool :=
  String.prefix (rev_string p EmptyString) (rev_string s EmptyString).

(** [txt.slice(1, -1)] *)
Definition slice_1_m1 (s : string) : string :=
  substring 1 (String.length s - 2) s.

(** [txt.slice(n)] *)
Definition slice_from (n : nat) (s : string) : string :=
  substring n (String.length s - n) s.

(** [txt.split(sep)] for a one-character separator. *)
Fixpoint split_loop (sep : ascii) (s cur : string) : list string :=
  match s with
  | EmptyString => [cur]
  | String c s' =>
      if Ascii.eqb c sep then cur :: split_loop sep s' EmptyString
      else split_loop sep s' (cur ++ String c EmptyString)
  end.

Definition split (s : string) (sep : ascii) : list string :=
  split_loop sep s EmptyString.

Definition lower_char (c : ascii) : ascii :=
  let n := nat_of_ascii c in
  if (65 <=? n) && (n <=? 90) then ascii_of_nat (n + 32) else c.

Fixpoint toLowerCase (s : string) : string :=
  match s with
  | EmptyString => EmptyString
  | String c s' => String (lower_char c) (toLowerCase s')
  end.

(** The longest prefix of decimal digits: its digits read as an integer,
    how many there are, and the rest of the string. *)
Fixpoint digits_prefix (s : string) (value : Z) (count : nat)
  : Z * nat * string :=
  match s with
  | String c s' =>
      if is_digit c
      then digits_prefix s' (10 * value + digit_value c) (S count)
      else (value, count, s)
  | EmptyString => (value, count, s)
  end.

Definition take_sign (s : string) : bool * string :=
  match s with
  | String "-"%char s' => (true, s')
  | String "+"%char s' => (false, s')
  | _ => (false, s)
  end.

Definition with_sign (negative : bool) (x : number) : number :=
  if negative then (- x)%float else x.

(** [parseInt(s, 10)] *)
Definition parseInt (s : string) : number :=
  let '(negative, s1) := take_sign (trimStart s) in
  let '(value, count, _) := digits_prefix s1 0 0 in
  match count with
  | O => nan
  | S _ => with_sign negative (of_Z value)
  end.

(** The number nearest to [m * 10 ^ e10], for [0 <= m]. *)
Definition of_decimal (m e10 : Z) : number :=
  match m with
  | Zpos p =>
      if (0 <=? e10)%Z then of_Z (m * 10 ^ e10)
      else SF2Prim (SFdiv prec emax (S754_finite false p 0)
                      (S754_finite false (Z.to_pos (10 ^ (- e10))) 0))
  | _ => zero
  end.

(** The exponent part of a decimal literal, when there is one. *)
Definition exponent_part (s : string) : Z :=
  match s with
  | String c s' =>
      if Ascii.eqb c "e"%char || Ascii.eqb c "E"%char then
        let '(negative, s2) := take_sign s' in
        let '(value, count, _) := digits_prefix s2 0 0 in
        match count with
        | O => 0%Z
        | S _ => if negative then (- value)%Z else value
        end
      else 0%Z
  | EmptyString => 0%Z
  end.

(** [parseFloat(s)]: the longest prefix that is a decimal literal. *)
Definition parseFloat (s : string) : number :=
  let '(negative, s1) := take_sign (trimStart s) in
  if startsWith s1 "Infinity" then with_sign negative infinity
  else
    let '(int_value, int_count, s2) := digits_prefix s1 0 0 in
    let '(value, frac_count, s3) :=
      match s2 with
      | String "."%char s2' =>
          let '(v, n, r) := digits_prefix s2' int_value 0 in
          match int_count, n with
          | O, O => (v, n, s2)
          | _, _ => (v, n, r)
          end
      | _ => (int_value, O, s2)
      end in
    match int_count, frac_count with
    | O, O => nan
    | _, _ =>
        with_sign negative
          (of_decimal value (exponent_part s3 - Z.of_nat frac_count))
    end.

(** [String(n)] for an integer [n]. *)
Definition String_of_Z (z : Z) : string :=
  NilZero.string_of_int (Z.to_int z).

(** *** Plain objects as maps

    [get] is [o[k]] ([None] for [undefined]); [set] is [o[k] = v], which
    keeps the position of a property that exists and adds a new one at
    the end.  [keys] and [values] list the properties in the order of
    insertion, which is the order in which JavaScript enumerates names
    that are not array indices; a name that is a canonical array index
    (as "7") would be enumerated before the others. *)
Section Objects.
Variable V : Type.

Definition object : Type := list (string * V).

Fixpoint get (o : object) (k : string) : option V :=
  match o with
  | [] => None
  | (k', v) :: o' => if String.eqb k' k then Some v else get o' k
  end.

Fixpoint set (o : object) (k : string) (v : V) : object :=
  match o with
  | [] => [(k, v)]
  | (k', v') :: o' =>
      if String.eqb k' k then (k', v) :: o' else (k', v') :: set o' k v
  end.

Definition keys (o : object) : list string := map fst o.
Definition values (o : object) : list V := map snd o.
End Objects.
Arguments get {V} o k.
Arguments set {V} o k v.
Arguments keys {V} o.
Arguments values {V} o.

(** [xs.includes(x)] and [xs.indexOf(x)] on arrays of strings. *)
Definition includes (xs : list string) (x : string) : bool :=
  existsb (String.eqb x) xs.

(** [xs.splice(xs.indexOf(x), 1)] when [x] occurs: the first occurrence
    is removed. *)
Fixpoint remove_first (x : string) (xs : list string) : list string :=
  match xs with
  | [] => []
  | y :: ys => if String.eqb y x then ys else y :: remove_first x ys
  end.

End js.

Fixpoint mapM {A B : Type} (f : A -> res B) (xs : list A) : res (list B) :=
  match xs with
  | [] => Ok []
  | x :: xs' => y <- f x ;; ys <- mapM f xs' ;; Ok (y :: ys)
  end.

(** ** lexer.ts *)

Module lexer.

Open Scope string_scope.
Open Scope list_scope.

Definition NEWLINE : ascii := "010"%char.
Definition WHITESPACE : ascii := " "%char.
Definition START_INFINITE_STOCK : ascii := "["%char.
Definition END_INFINITE_STOCK : ascii := "]"%char.
Definition START_PAREN : ascii := "("%char.
Definition START_PARAMETER_SET : ascii := START_PAREN.
Definition END_PAREN : ascii := ")"%char.
Definition END_PARAMETER_SET : ascii := END_PAREN.
Definition FLOW_DIRECTION : ascii := ">"%char.
Definition FLOW_DELIMITER : ascii := "@"%char.
Definition COMMENT : ascii := "#"%char.
Definition INFINITY : string := "inf".

Definition str (c : ascii) : string := String c EmptyString.

Inductive TokenKind : Type :=
  | TOKEN_WHITESPACE | TOKEN_LINES | TOKEN_LINE | TOKEN_NAME
  | TOKEN_STOCK | TOKEN_STOCK_INFINITE | TOKEN_FLOW
  | TOKEN_FLOW_DIRECTION | TOKEN_FLOW_DELIMITER | TOKEN_PARAMS
  | TOKEN_WHOLE | TOKEN_DECIMAL | TOKEN_INFINITY | TOKEN_REFERENCE
  | TOKEN_FORMULA | TOKEN_OP | TOKEN_COMMENT.

Definition TokenKind_eqb (a b : TokenKind) : bool :=
  match a, b with
  | TOKEN_WHITESPACE, TOKEN_WHITESPACE | TOKEN_LINES, TOKEN_LINES
  | TOKEN_LINE, TOKEN_LINE | TOKEN_NAME, TOKEN_NAME
  | TOKEN_STOCK, TOKEN_STOCK | TOKEN_STOCK_INFINITE, TOKEN_STOCK_INFINITE
  | TOKEN_FLOW, TOKEN_FLOW | TOKEN_FLOW_DIRECTION, TOKEN_FLOW_DIRECTION
  | TOKEN_FLOW_DELIMITER, TOKEN_FLOW_DELIMITER | TOKEN_PARAMS, TOKEN_PARAMS
  | TOKEN_WHOLE, TOKEN_WHOLE | TOKEN_DECIMAL, TOKEN_DECIMAL
  | TOKEN_INFINITY, TOKEN_INFINITY | TOKEN_REFERENCE, TOKEN_REFERENCE
  | TOKEN_FORMULA, TOKEN_FORMULA | TOKEN_OP, TOKEN_OP
  | TOKEN_COMMENT, TOKEN_COMMENT => true
  | _, _ => false
  end.

(** The elements of a formula: a [SimpleToken] [[kind, val]] or a nested
    [FormulaToken] [[TOKEN_FORMULA, tokens]]. *)
Inductive Leaf : Type :=
  | SimpleToken (kind : TokenKind) (val : string)
  | SubFormula (tokens : list Leaf).

(** A [FormulaToken] [[TOKEN_FORMULA, tokens]] is kept as [tokens], a
    [ParamsToken] [[TOKEN_PARAMS, params]] as [params]. *)
Definition FormulaToken := list Leaf.
Definition ParamsToken := list FormulaToken.

(** The tokens of a line: a simple token, or a [StockToken] or
    [FlowToken] [[kind, name, params]]. *)
Inductive Token : Type :=
  | Simple (kind : TokenKind) (val : string)
  | Caller (kind : TokenKind) (name : string) (params : ParamsToken).

Record LineToken := { lineNumber : nat; lineTokens : list Token }.
Definition LinesToken := list LineToken.

Definition kind_of (t : Leaf) : TokenKind :=
  match t with
  | SimpleToken kind _ => kind
  | SubFormula _ => TOKEN_FORMULA
  end.

(** Structural comparison, as [JSON.stringify(a) === JSON.stringify(b)]
    decides it on token arrays. *)
Fixpoint Leaf_eqb (a b : Leaf) {struct a} : bool :=
  match a, b with
  | SimpleToken k1 v1, SimpleToken k2 v2 =>
      TokenKind_eqb k1 k2 && String.eqb v1 v2
  | SubFormula ts1, SubFormula ts2 =>
      (fix go (xs ys : list Leaf) {struct xs} : bool :=
         match xs, ys with
         | [], [] => true
         | x :: xs', y :: ys' => Leaf_eqb x y && go xs' ys'
         | _, _ => false
         end) ts1 ts2
  | _, _ => false
  end.

Definition FormulaToken_eqb (a b : FormulaToken) : bool :=
  Leaf_eqb (SubFormula a) (SubFormula b).

(** [/^-?[0-9]+$/] *)
Definition all_digits (s : string) : bool :=
  let '(_, count, rest) := js.digits_prefix s 0 0 in
  negb (Nat.eqb count 0) && String.eqb rest "".

Definition PARAM_WHOLE (s : string) : bool :=
  match s with
  | String "-"%char s' => all_digits s'
  | _ => all_digits s
  end.

(** [/^[0-9]+\.[0-9]+$/] *)
Definition PARAM_DECIMAL (s : string) : bool :=
  let '(_, count, rest) := js.digits_prefix s 0 0 in
  negb (Nat.eqb count 0) &&
  match rest with
  | String "."%char s' => all_digits s'
  | _ => false
  end.

(** [/^[\/\+\-\*]$/] on one character *)
Definition OPERATIONS (c : ascii) : bool :=
  Ascii.eqb c "/"%char || Ascii.eqb c "+"%char ||
  Ascii.eqb c "-"%char || Ascii.eqb c "*"%char.

(** [/^[a-zA-Z][a-zA-Z0-9_]*/]: the matched prefix, if any. *)
Fixpoint name_tail (s : string) : string :=
  match s with
  | String c s' =>
      if js.is_letter c || js.is_digit c || Ascii.eqb c "_"%char
      then String c (name_tail s') else ""
  | EmptyString => ""
  end.

Definition LEGAL_STOCK_NAME (s : string) : option string :=
  match s with
  | String c s' => if js.is_letter c then Some (String c (name_tail s')) else None
  | EmptyString => None
  end.

Definition lexValue (txt : string) : Leaf :=
  let txt := js.trim txt in
  if String.eqb txt INFINITY then SimpleToken TOKEN_INFINITY txt
  else if PARAM_WHOLE txt then SimpleToken TOKEN_WHOLE txt
  else if PARAM_DECIMAL txt then SimpleToken TOKEN_DECIMAL txt
  else SimpleToken TOKEN_REFERENCE txt.

(** [if (acc) tokens.push(lexValue(acc))] *)
Definition flush (tokens : list Leaf) (acc : string) : list Leaf :=
  match acc with
  | EmptyString => tokens
  | _ => tokens ++ [lexValue acc]
  end.

(** The loop of [lexFormula]: [groups] is the stack of token lists in
    progress (its top first), [tokens] the current one, [acc] the text
    of the value being read. *)
Fixpoint lexFormula_loop (cs : string) (groups : list (list Leaf))
    (tokens : list Leaf) (acc : string) : res FormulaToken :=
  match cs with
  | EmptyString => Ok tokens
  | String c cs' =>
      if Ascii.eqb c START_PAREN then
        lexFormula_loop cs' (tokens :: groups) [] acc
      else if Ascii.eqb c END_PAREN then
        match groups with
        | prevTokens :: groups' =>
            lexFormula_loop cs' groups'
              (prevTokens ++ [SubFormula (flush tokens acc)]) ""
        | [] => Err TypeError
        end
      else if Ascii.eqb c WHITESPACE || Ascii.eqb c NEWLINE then
        lexFormula_loop cs' groups (flush tokens acc) ""
      else if OPERATIONS c then
        lexFormula_loop cs' groups
          (flush tokens acc ++ [SimpleToken TOKEN_OP (str c)]) ""
      else
        lexFormula_loop cs' groups tokens (acc ++ str c)%string
  end.

Definition lexFormula (txt : string) : res FormulaToken :=
  lexFormula_loop (js.trim txt ++ str NEWLINE)%string [] [] "".

Definition lexParameters (txt : string) : res ParamsToken :=
  if String.eqb txt "" then Ok []
  else if js.startsWith txt (str START_PARAMETER_SET)
          && js.endsWith txt (str END_PARAMETER_SET) then
    mapM lexFormula (js.split (js.slice_1_m1 txt) ","%char)
  else Err (InvalidParameters txt 0).

Definition lexCaller (token : TokenKind) (txt : string) : res Token :=
  let txt := js.trim txt in
  match LEGAL_STOCK_NAME txt with
  | None => Err (IllegalStockName txt)
  | Some name =>
      let rest := js.slice_from (String.length name) txt in
      if negb (String.eqb rest "") &&
         negb (js.startsWith rest (str START_PARAMETER_SET)
               && js.endsWith rest (str END_PARAMETER_SET))
      then Err (IllegalStockName txt)
      else params <- lexParameters rest ;; Ok (Caller token name params)
  end.

Definition lexStock (txt : string) : res Token :=
  let txt := js.trim txt in
  if js.startsWith txt (str START_INFINITE_STOCK)
     && js.endsWith txt (str END_INFINITE_STOCK)
  then Ok (Caller TOKEN_STOCK_INFINITE (js.slice_1_m1 txt) [])
  else lexCaller TOKEN_STOCK txt.

Definition lexFlow (txt : string) : res Token :=
  let txt := js.trim txt in
  match LEGAL_STOCK_NAME txt with
  | Some name =>
      if js.startsWith (js.slice_from (String.length name) txt)
           (str START_PARAMETER_SET)
         && js.endsWith txt (str END_PARAMETER_SET)
      then lexCaller TOKEN_FLOW txt
      else params <- lexParameters ("(" ++ txt ++ ")")%string ;;
           Ok (Caller TOKEN_FLOW "" params)
  | None =>
      params <- lexParameters ("(" ++ txt ++ ")")%string ;;
      Ok (Caller TOKEN_FLOW "" params)
  end.

(** The state of the scanner of [lex]. *)
Record LexState := {
  ls_tokens : list LineToken;
  ls_line : list Token;
  ls_charBuff : string;
  ls_parsing : TokenKind;
  ls_lineNum : nat
}.

Definition is_blank (charBuff : string) : bool :=
  String.eqb charBuff (str WHITESPACE).

(** [if (charBuff !== WHITESPACE) line.push(lexX(charBuff))] *)
Definition push_lexed (lexX : string -> res Token) (line : list Token)
    (charBuff : string) : res (list Token) :=
  if is_blank charBuff then Ok line
  else t <- lexX charBuff ;; Ok (line ++ [t]).

(** The end of the loop body of [lex], which a [continue] skips. *)
Definition lex_tail (c : ascii) (s : LexState) : res LexState :=
  if Ascii.eqb c NEWLINE then
    if negb (is_blank (ls_charBuff s)) then
      Err (PlainError ("unused char_buff: " ++ ls_charBuff s)%string)
    else
      let lineNum := S (ls_lineNum s) in
      Ok {| ls_tokens :=
              match ls_line s with
              | [] => ls_tokens s
              | _ => ls_tokens s
                       ++ [{| lineNumber := lineNum; lineTokens := ls_line s |}]
              end;
            ls_line := [];
            ls_charBuff := str WHITESPACE;
            ls_parsing := TOKEN_STOCK;
            ls_lineNum := lineNum |}
  else if (Ascii.eqb c WHITESPACE || Ascii.eqb c FLOW_DIRECTION)
          && negb (TokenKind_eqb (ls_parsing s) TOKEN_COMMENT) then
    Ok s
  else
    Ok {| ls_tokens := ls_tokens s; ls_line := ls_line s;
          ls_charBuff := (ls_charBuff s ++ str c)%string;
          ls_parsing := ls_parsing s; ls_lineNum := ls_lineNum s |}.

Definition with_line (s : LexState) (line : list Token) (charBuff : string)
    (parsing : TokenKind) : LexState :=
  {| ls_tokens := ls_tokens s; ls_line := line; ls_charBuff := charBuff;
     ls_parsing := parsing; ls_lineNum := ls_lineNum s |}.

(** One iteration of the loop of [lex], on the character [c]. *)
Definition lex_step (c : ascii) (s : LexState) : res LexState :=
  let blank := str WHITESPACE in
  if Ascii.eqb c COMMENT && Nat.eqb (List.length (ls_line s)) 0
     && is_blank (ls_charBuff s) then
    lex_tail c (with_line s (ls_line s) (ls_charBuff s) TOKEN_COMMENT)
  else if TokenKind_eqb (ls_parsing s) TOKEN_COMMENT then
    if Ascii.eqb c NEWLINE then
      lex_tail c (with_line s
        (ls_line s ++ [Simple TOKEN_COMMENT (js.slice_from 1 (ls_charBuff s))])
        blank (ls_parsing s))
    else lex_tail c s
  else if TokenKind_eqb (ls_parsing s) TOKEN_STOCK then
    if Ascii.eqb c COMMENT then
      line <- push_lexed lexStock (ls_line s) (ls_charBuff s) ;;
      Ok (with_line s line blank TOKEN_COMMENT)
    else if Ascii.eqb c FLOW_DIRECTION then
      t <- lexStock (ls_charBuff s) ;;
      Ok (with_line s (ls_line s ++ [t; Simple TOKEN_FLOW_DIRECTION (str c)])
            blank TOKEN_STOCK)
    else if Ascii.eqb c FLOW_DELIMITER then
      t <- lexStock (ls_charBuff s) ;;
      Ok (with_line s (ls_line s ++ [t; Simple TOKEN_FLOW_DELIMITER (str c)])
            blank TOKEN_FLOW)
    else if Ascii.eqb c NEWLINE then
      line <- push_lexed lexStock (ls_line s) (ls_charBuff s) ;;
      lex_tail c (with_line s line blank (ls_parsing s))
    else lex_tail c s
  else if TokenKind_eqb (ls_parsing s) TOKEN_FLOW then
    if Ascii.eqb c COMMENT then
      line <- push_lexed lexFlow (ls_line s) (ls_charBuff s) ;;
      Ok (with_line s line blank TOKEN_COMMENT)
    else if Ascii.eqb c NEWLINE then
      line <- push_lexed lexFlow (ls_line s) (ls_charBuff s) ;;
      lex_tail c (with_line s line blank (ls_parsing s))
    else lex_tail c s
  else lex_tail c s.

Fixpoint lex_loop (cs : string) (s : LexState) : res LexState :=
  match cs with
  | EmptyString => Ok s
  | String c cs' => s' <- lex_step c s ;; lex_loop cs' s'
  end.

(** [lex]: the text is wrapped as [' ' + txt + '\n'], its first character
    is the initial buffer and the loop starts at the second. *)
Definition lex (txt : string) : res LinesToken :=
  s <- lex_loop (txt ++ str NEWLINE)%string
         {| ls_tokens := []; ls_line := []; ls_charBuff := str WHITESPACE;
            ls_parsing := TOKEN_STOCK; ls_lineNum := 0 |} ;;
  Ok (ls_tokens s).

End lexer.

(** ** algos.ts *)

Module algos.

Definition Graph : Type := js.object (list string).

Record CycleResult := {
  hasCycle : bool;
  cycles : Graph;
  initialPath : list string
}.

(** What the loop of [findCycles] reads and writes: the two arguments,
    the working copy [cycles], the array [deps] and the flag [changed]. *)
Record LoopState := {
  st_inGraph : Graph;
  st_outGraph : Graph;
  st_cycles : Graph;
  st_deps : list string;
  st_changed : bool
}.

(** [for (const edge of edges)]: the first occurrence of [node] is
    spliced out of [inGraph[edge]]; a missing [inGraph[edge]] is a
    [TypeError]. *)
Fixpoint trim_edges (node : string) (edges : list string) (inGraph : Graph)
  : res Graph :=
  match edges with
  | [] => Ok inGraph
  | edge :: rest =>
      match js.get inGraph edge with
      | None => Err TypeError
      | Some ins =>
          trim_edges node rest (js.set inGraph edge (js.remove_first node ins))
      end
  end.

(** The body of [for (const node in cycles)]. *)
Definition visit (node : string) (st : LoopState) : res LoopState :=
  match js.get (st_cycles st) node with
  | None => Ok st
  | Some edges =>
      match js.get (st_inGraph st) node with
      | None => Err TypeError
      | Some ins =>
          if Nat.eqb (List.length ins) 0 && Nat.ltb 0 (List.length edges) then
            inGraph' <- trim_edges node edges (st_inGraph st) ;;
            Ok {| st_inGraph := inGraph';
                  st_outGraph := st_outGraph st;
                  st_cycles := js.set (st_cycles st) node [];
                  st_deps := st_deps st ++ [node];
                  st_changed := true |}
          else Ok st
      end
  end.

Fixpoint visit_all (nodes : list string) (st : LoopState) : res LoopState :=
  match nodes with
  | [] => Ok st
  | node :: rest => st' <- visit node st ;; visit_all rest st'
  end.

Definition with_changed (st : LoopState) (b : bool) : LoopState :=
  {| st_inGraph := st_inGraph st; st_outGraph := st_outGraph st;
     st_cycles := st_cycles st; st_deps := st_deps st; st_changed := b |}.

(** [while (changed)], with the number of passes bounded by [fuel];
    [while_changed_error] shows that the bound [findCycles] gives is never
    reached. *)
Fixpoint while_changed (fuel : nat) (st : LoopState) : res LoopState :=
  if st_changed st then
    match fuel with
    | O => Err (PlainError "fuel")
    | S fuel' =>
        st' <- visit_all (js.keys (st_cycles st)) (with_changed st false) ;;
        while_changed fuel' st'
    end
  else Ok st.

(** [cycles[node] = [...outGraph[node]]] for every node. *)
Definition copy_graph (outGraph : Graph) : Graph :=
  map (fun '(node, edges) => (node, edges)) outGraph.

(** [findCycles]: the result, and the two argument objects as the call
    leaves them. *)
Definition findCycles (inGraph outGraph : Graph)
  : res (CycleResult * (Graph * Graph)) :=
  let cycles := copy_graph outGraph in
  st <- while_changed (S (List.length cycles))
          {| st_inGraph := inGraph; st_outGraph := outGraph;
             st_cycles := cycles; st_deps := []; st_changed := true |} ;;
  Ok ({| hasCycle :=
           existsb (fun x => Nat.ltb 0 (List.length x)) (js.values (st_cycles st));
         cycles := st_cycles st;
         initialPath := rev (st_deps st) |},
      (st_inGraph st, st_outGraph st)).

End algos.

(** ** models.ts *)

Definition DEFAULT_MAXIMUM : js.number := js.POSITIVE_INFINITY.

Definition StateMap : Type := js.object js.number.

(** [state[name]] *)
Definition lookup (state : StateMap) (name : string) : js.number :=
  match js.get state name with
  | Some v => v
  | None => nan
  end.

(** [string | number | FormulaToken]: of the numbers, the integers
    ([String(n)] is their decimal numeral) and [Number.POSITIVE_INFINITY];
    a fractional number is given as the text [String] prints for it. *)
Inductive FormulaDefinition : Type :=
  | DefString (txt : string)
  | DefNumber (n : Z)
  | DefInfinity
  | DefToken (token : lexer.FormulaToken).

Module Formula.

Import lexer.
Open Scope string_scope.
Open Scope list_scope.

Record t := { lexed : FormulaToken; default : js.number }.

Fixpoint validate_loop (tokens : list Leaf) (prevKind : option TokenKind)
  : res (option TokenKind) :=
  match tokens with
  | [] => Ok prevKind
  | token :: rest =>
      let kind := kind_of token in
      if TokenKind_eqb kind TOKEN_OP then
        match prevKind with
        | None => Err (InvalidFormula "can't start with an operation")
        | Some prev =>
            if TokenKind_eqb prev TOKEN_OP
            then Err (InvalidFormula "operation can't be preceded by an operation")
            else validate_loop rest (Some kind)
        end
      else
        match prevKind with
        | Some prev =>
            if negb (TokenKind_eqb prev TOKEN_OP)
            then Err (InvalidFormula
                        "must have an operation between values or references")
            else validate_loop rest (Some kind)
        | None => validate_loop rest (Some kind)
        end
  end.

Definition is_op (k : option TokenKind) : bool :=
  match k with
  | Some kind => TokenKind_eqb kind TOKEN_OP
  | None => false
  end.

Definition validate_tokens (tokens : FormulaToken) : res unit :=
  match tokens with
  | [] => Err (InvalidFormula
                 "formula is empty. must specify a number or a reference")
  | _ =>
      prevKind <- validate_loop tokens None ;;
      if is_op prevKind
      then Err (InvalidFormula "formula cannot end with an operation")
      else Ok tt
  end.

Definition validate (f : t) : res unit := validate_tokens (lexed f).

Definition references (f : t) : list string :=
  flat_map (fun token =>
              match token with
              | SimpleToken TOKEN_REFERENCE val => [val]
              | _ => []
              end) (lexed f).

(** The update of [acc] by a value, under the operator last seen. *)
Definition apply_op (acc : option js.number) (op : option string)
    (val : js.number) : option js.number :=
  match acc with
  | None => Some val
  | Some a =>
      match op with
      | Some "/" => Some (a / val)%float
      | Some "*" => Some (a * val)%float
      | Some "+" => Some (a + val)%float
      | Some "-" => Some (a - val)%float
      | _ => Some a
      end
  end.

Section Loop.
(** The value of a token that is not an operation. *)
Variable value_of : Leaf -> res js.number.

Fixpoint compute_loop (tokens : list Leaf) (acc : option js.number)
    (op : option string) : res (option js.number) :=
  match tokens with
  | [] => Ok acc
  | SimpleToken TOKEN_OP valStr :: rest => compute_loop rest acc (Some valStr)
  | token :: rest =>
      val <- value_of token ;;
      compute_loop rest (apply_op acc op val) op
  end.
End Loop.

Definition or_default (acc : option js.number) (default : js.number)
  : js.number :=
  match acc with
  | Some a => a
  | None => default
  end.

(** A token of kind [TOKEN_FORMULA] is evaluated by
    [new Formula(token).compute(state)]: a nested formula is validated,
    then computed with the default 0.  The lexer gives that kind to
    nested formulas only; on a string payload the constructor and
    [compute] go through its characters, as the second case retraces. *)
Fixpoint value_of (state : StateMap) (token : Leaf) : res js.number :=
  match token with
  | SimpleToken TOKEN_WHOLE valStr => Ok (js.parseInt valStr)
  | SimpleToken TOKEN_INFINITY _ => Ok js.POSITIVE_INFINITY
  | SimpleToken TOKEN_DECIMAL valStr => Ok (js.parseFloat valStr)
  | SimpleToken TOKEN_REFERENCE valStr => Ok (lookup state valStr)
  | SubFormula tokens =>
      _ <- validate_tokens tokens ;;
      acc <- compute_loop (value_of state) tokens None None ;;
      Ok (or_default acc 0%float)
  | SimpleToken TOKEN_FORMULA valStr =>
      match String.length valStr with
      | 0 => Err (InvalidFormula
                    "formula is empty. must specify a number or a reference")
      | 1 => Err (PlainError "This should be unreachable")
      | _ => Err (InvalidFormula
                    "must have an operation between values or references")
      end
  | SimpleToken _ _ => Err (PlainError "This should be unreachable")
  end.

Definition compute (f : t) (state : StateMap) : res js.number :=
  acc <- compute_loop (value_of state) (lexed f) None None ;;
  Ok (or_default acc (default f)).

(** [new Formula(definition, defaultValue)] *)
Definition new (definition : FormulaDefinition) (defaultValue : js.number)
  : res t :=
  lexed <- match definition with
           | DefString txt => lexFormula txt
           | DefInfinity => lexFormula "inf"
           | DefNumber n => lexFormula (js.String_of_Z n)
           | DefToken token => Ok token
           end ;;
  let f := {| lexed := lexed; default := defaultValue |} in
  _ <- validate f ;;
  Ok f.

End Formula.

Module Stock.

Record t := {
  name : string;
  initial : Formula.t;
  maximum : Formula.t;
  show : bool
}.

(** [new Stock(name, initial, maximum, show)]; an argument left out
    ([None]) takes its default. *)
Definition new (name : string) (initial maximum : option Formula.t)
    (show : option bool) : res t :=
  initial <- match initial with
             | Some f => Ok f
             | None => Formula.new (DefNumber 0) 0%float
             end ;;
  maximum <- match maximum with
             | Some f => Ok f
             | None => Formula.new DefInfinity 0%float
             end ;;
  Ok {| name := name; initial := initial; maximum := maximum;
        show := match show with Some b => b | None => true end |}.

Definition with_initial (s : t) (f : Formula.t) : t :=
  {| name := name s; initial := f; maximum := maximum s; show := show s |}.

Definition with_maximum (s : t) (f : Formula.t) : t :=
  {| name := name s; initial := initial s; maximum := f; show := show s |}.

End Stock.

(** The three subclasses of [RateBase]. *)
Inductive RateClass : Type := Rate | Conversion | Leak.

Module RateBase.

Record t := { class : RateClass; formula : Formula.t }.

Definition new (class : RateClass) (definition : FormulaDefinition) : res t :=
  f <- Formula.new definition 0%float ;;
  Ok {| class := class; formula := f |}.

Definition Rate_calculate (r : t) (state : StateMap)
    (src dest capacity : js.number) : res (js.number * js.number) :=
  evaluated <- Formula.compute (formula r) state ;;
  if (0 <? src)%float then
    let change := if (0 <=? src - evaluated)%float then evaluated else src in
    let change := js.Math_min capacity (js.Math_max 0%float change) in
    Ok (change, change)
  else Ok (0%float, 0%float).

Definition Conversion_calculate (r : t) (state : StateMap)
    (src dest capacity : js.number) : res (js.number * js.number) :=
  evaluated <- Formula.compute (formula r) state ;;
  let maxSrcChange :=
    if (dest =? js.POSITIVE_INFINITY)%float
       || (capacity =? js.POSITIVE_INFINITY)%float
    then src
    else js.Math_max 0%float (js.Math_floor ((capacity - dest) / evaluated)%float) in
  let change := js.Math_floor (maxSrcChange * evaluated)%float in
  if (change =? 0)%float then Ok (0%float, 0%float)
  else Ok (maxSrcChange, change).

Definition Leak_calculate (r : t) (state : StateMap)
    (src dest capacity : js.number) : res (js.number * js.number) :=
  evaluated <- Formula.compute (formula r) state ;;
  let change := js.Math_floor (src * evaluated)%float in
  let change := if negb (js.isNaN capacity)
                then js.Math_min capacity change else change in
  Ok (change, change).

Definition calculate (r : t) (state : StateMap)
    (src dest capacity : js.number) : res (js.number * js.number) :=
  match class r with
  | Rate => Rate_calculate r state src dest capacity
  | Conversion => Conversion_calculate r state src dest capacity
  | Leak => Leak_calculate r state src dest capacity
  end.

Definition validateSource (r : t) (sourceStock : Stock.t) : res unit :=
  match class r with
  | Rate => Ok tt
  | Conversion | Leak =>
      v <- Formula.compute (Stock.initial sourceStock) [] ;;
      if (v =? js.POSITIVE_INFINITY)%float
      then Err (IllegalSourceStock (Stock.name sourceStock))
      else Ok tt
  end.

End RateBase.

(** A [Flow] holds its two [Stock] objects by reference; the stocks the
    library creates are the elements of [model.stocks], and the
    reference is the position there, so that an update of a stock in
    place ([buildStock]) is seen through the flows that hold it. *)
Module Flow.

Record t := { source : nat; destination : nat; rate : RateBase.t }.

(** The stock behind a reference; a reference to nothing is what
    [undefined.name] raises. *)
Definition deref (stocks : list Stock.t) (ref : nat) : res Stock.t :=
  match nth_error stocks ref with
  | Some s => Ok s
  | None => Err TypeError
  end.

Definition new (stocks : list Stock.t) (source destination : nat)
    (rate : RateBase.t) : res t :=
  src <- deref stocks source ;;
  _ <- RateBase.validateSource rate src ;;
  Ok {| source := source; destination := destination; rate := rate |}.

Definition change (stocks : list Stock.t) (f : t) (state : StateMap)
    (sourceState destState : js.number) : res (js.number * js.number) :=
  dest <- deref stocks (destination f) ;;
  capacity <- Formula.compute (Stock.maximum dest) state ;;
  let adjustedCapacity :=
    if negb (destState =? js.POSITIVE_INFINITY)%float
    then (capacity - destState)%float else capacity in
  RateBase.calculate (rate f) state sourceState destState adjustedCapacity.

End Flow.

Module Model.

Record t := {
  name : string;
  stocks : list Stock.t;
  flows : list Flow.t;
  initialPath : list string
}.

Definition new (name : string) : t :=
  {| name := name; stocks := []; flows := []; initialPath := [] |}.

Definition with_stocks (m : t) (stocks : list Stock.t) : t :=
  {| name := name m; stocks := stocks; flows := flows m;
     initialPath := initialPath m |}.

Definition with_flows (m : t) (flows : list Flow.t) : t :=
  {| name := name m; stocks := stocks m; flows := flows;
     initialPath := initialPath m |}.

Definition with_initialPath (m : t) (initialPath : list string) : t :=
  {| name := name m; stocks := stocks m; flows := flows m;
     initialPath := initialPath |}.

(** [stocks.find(stock => stock.name === name)], as a reference. *)
Fixpoint find_from (stocks : list Stock.t) (name : string) (pos : nat)
  : option nat :=
  match stocks with
  | [] => None
  | s :: rest =>
      if String.eqb (Stock.name s) name then Some pos
      else find_from rest name (S pos)
  end.

Definition getStockRef (m : t) (name : string) : option nat :=
  find_from (stocks m) name 0.

Definition getStock (m : t) (name : string) : option Stock.t :=
  match getStockRef m name with
  | Some ref => nth_error (stocks m) ref
  | None => None
  end.

(** The methods that create a stock return it (its reference) and the
    model with the stock pushed. *)
Definition push_stock (m : t) (s : Stock.t) : nat * t :=
  (List.length (stocks m), with_stocks m (stocks m ++ [s])).

Definition infiniteStock (m : t) (name : string) : res (nat * t) :=
  initial <- Formula.new DefInfinity 0%float ;;
  s <- Stock.new name (Some initial) None (Some false) ;;
  Ok (push_stock m s).

Definition stock (m : t) (name : string) (initial maximum : option Formula.t)
    (show : option bool) : res (nat * t) :=
  s <- Stock.new name initial maximum show ;;
  Ok (push_stock m s).

Definition flow (m : t) (source destination : nat) (rate : RateBase.t)
  : res t :=
  f <- Flow.new (stocks m) source destination rate ;;
  Ok (with_flows m (flows m ++ [f])).

(** The pairs [(formula, ref)] that [validateExistingStocks] collects:
    here the references alone, in the order of collection. *)
Definition collected_refs (m : t) : list string :=
  flat_map (fun s => Formula.references (Stock.maximum s)
                     ++ Formula.references (Stock.initial s)) (stocks m)
  ++ flat_map (fun f => Formula.references (RateBase.formula (Flow.rate f)))
       (flows m).

Fixpoint check_refs (stockNames refs : list string) : res unit :=
  match refs with
  | [] => Ok tt
  | ref :: rest =>
      if negb (js.includes stockNames ref)
      then Err (InvalidFormula
                  ("reference to non-existent stock '" ++ ref ++ "'")%string)
      else check_refs stockNames rest
  end.

Definition validateExistingStocks (m : t) : res unit :=
  check_refs (map Stock.name (stocks m)) (collected_refs m).

(** [outwardRefs[stock.name].push(ref); inwardRefs[ref].push(stock.name)] *)
Definition push_edge (stockName ref : string) (g : algos.Graph * algos.Graph)
  : res (algos.Graph * algos.Graph) :=
  let '(inwardRefs, outwardRefs) := g in
  match js.get outwardRefs stockName with
  | None => Err TypeError
  | Some out =>
      let outwardRefs := js.set outwardRefs stockName (out ++ [ref]) in
      match js.get inwardRefs ref with
      | None => Err TypeError
      | Some ins =>
          Ok (js.set inwardRefs ref (ins ++ [stockName]), outwardRefs)
      end
  end.

Fixpoint push_edges (stockName : string) (refs : list string)
    (g : algos.Graph * algos.Graph) : res (algos.Graph * algos.Graph) :=
  match refs with
  | [] => Ok g
  | ref :: rest => g' <- push_edge stockName ref g ;; push_edges stockName rest g'
  end.

Fixpoint push_all (stocks : list Stock.t) (g : algos.Graph * algos.Graph)
  : res (algos.Graph * algos.Graph) :=
  match stocks with
  | [] => Ok g
  | s :: rest =>
      g' <- push_edges (Stock.name s) (Formula.references (Stock.initial s)) g ;;
      push_all rest g'
  end.

(** The two graphs of [validateInitialCycles], before [findCycles]. *)
Definition reference_graphs (m : t) : res (algos.Graph * algos.Graph) :=
  let empty :=
    fold_left (fun g s => js.set g (Stock.name s) []) (stocks m) [] in
  push_all (stocks m) (empty, empty).

Definition validateInitialCycles (m : t) : res t :=
  '(inwardRefs, outwardRefs) <- reference_graphs m ;;
  '(result, (_, outwardRefs')) <- algos.findCycles inwardRefs outwardRefs ;;
  if algos.hasCycle result
  then Err (CircularReferences (algos.cycles result) outwardRefs')
  else Ok (with_initialPath m (algos.initialPath result)).

Definition validate (m : t) : res t :=
  _ <- validateExistingStocks m ;;
  validateInitialCycles m.

End Model.

Module State.

(** [this.state[stock.name] = stock.initial.compute(this.state)] *)
Definition init_stock (s : Stock.t) (state : StateMap) : res StateMap :=
  v <- Formula.compute (Stock.initial s) state ;;
  Ok (js.set state (Stock.name s) v).

Fixpoint init_outside_path (m : Model.t) (stocks : list Stock.t)
    (state : StateMap) : res StateMap :=
  match stocks with
  | [] => Ok state
  | s :: rest =>
      if negb (js.includes (Model.initialPath m) (Stock.name s))
      then state' <- init_stock s state ;; init_outside_path m rest state'
      else init_outside_path m rest state
  end.

Fixpoint init_path (m : Model.t) (names : list string) (state : StateMap)
  : res StateMap :=
  match names with
  | [] => Ok state
  | name :: rest =>
      match Model.getStock m name with
      | Some s => state' <- init_stock s state ;; init_path m rest state'
      | None => init_path m rest state
      end
  end.

(** [new State(model)]: the state map it builds. *)
Definition new (m : Model.t) : res StateMap :=
  state <- init_outside_path m (Model.stocks m) [] ;;
  init_path m (Model.initialPath m) state.

(** The body of the loop over the flows: the removal is written to the
    state, the addition is pushed on [deferred]. *)
Definition process_flow (m : Model.t) (f : Flow.t)
    (sd : StateMap * list (string * js.number))
  : res (StateMap * list (string * js.number)) :=
  let '(state, deferred) := sd in
  source <- Flow.deref (Model.stocks m) (Flow.source f) ;;
  destination <- Flow.deref (Model.stocks m) (Flow.destination f) ;;
  let sourceState := lookup state (Stock.name source) in
  let destinationState := lookup state (Stock.name destination) in
  '(remChange, addChange) <-
     Flow.change (Model.stocks m) f state sourceState destinationState ;;
  Ok (js.set state (Stock.name source)
        (lookup state (Stock.name source) - remChange)%float,
      deferred ++ [(Stock.name destination, addChange)]).

Fixpoint process_flows (m : Model.t) (fs : list Flow.t)
    (sd : StateMap * list (string * js.number))
  : res (StateMap * list (string * js.number)) :=
  match fs with
  | [] => Ok sd
  | f :: rest => sd' <- process_flow m f sd ;; process_flows m rest sd'
  end.

(** [for (const [dest, change] of deferred) this.state[dest] += change] *)
Definition apply_deferred (state : StateMap)
    (deferred : list (string * js.number)) : StateMap :=
  fold_left (fun st '(dest, change) =>
               js.set st dest (lookup st dest + change)%float)
    deferred state.

(** [advance]: the flows are taken from the last to the first. *)
Definition advance (m : Model.t) (state : StateMap) : res StateMap :=
  '(state', deferred) <- process_flows m (rev (Model.flows m)) (state, []) ;;
  Ok (apply_deferred state' deferred).

(** [{ ...this.state }] *)
Definition snapshot (state : StateMap) : StateMap := state.

End State.

(** [Model.run(rounds)]: [validate] stores the initial path in the model,
    then the snapshots are collected. *)
Fixpoint run_rounds (m : Model.t) (rounds : nat) (state : StateMap)
    (snapshots : list StateMap) : res (list StateMap) :=
  match rounds with
  | O => Ok snapshots
  | S rounds' =>
      state' <- State.advance m state ;;
      run_rounds m rounds' state' (snapshots ++ [State.snapshot state'])
  end.

Definition Model_run (m : Model.t) (rounds : nat) : res (list StateMap) :=
  m' <- Model.validate m ;;
  s <- State.new m' ;;
  run_rounds m' rounds s [State.snapshot s].

(** ** parse.ts *)

Module parse.

Import lexer.
Open Scope string_scope.
Open Scope list_scope.

(** [exists.initial = initial] and [exists.maximum = maximum] update the
    stock behind the reference: once both blocks of [buildStock] have
    run, it is replaced in [model.stocks]. *)
Fixpoint update_at (stocks : list Stock.t) (ref : nat) (s : Stock.t)
  : list Stock.t :=
  match stocks, ref with
  | [], _ => []
  | _ :: rest, O => s :: rest
  | x :: rest, S ref' => x :: update_at rest ref' s
  end.

(** One of the two blocks of [buildStock] on a stock that exists: [value]
    is the declared formula, [current] the one the stock has.  [None]
    when nothing is written. *)
Definition reuse_value (name : string) (value default current : Formula.t)
  : res (option Formula.t) :=
  if negb (FormulaToken_eqb (Formula.lexed value) (Formula.lexed default)) then
    if negb (FormulaToken_eqb (Formula.lexed current) (Formula.lexed value))
       && FormulaToken_eqb (Formula.lexed current) (Formula.lexed default)
    then Ok (Some value)
    else Err (ConflictingValues name 0)
  else Ok None.

Definition buildStock (model : Model.t) (tokenTuple : Token)
  : res (nat * Model.t) :=
  match tokenTuple with
  | Simple _ _ => Err TypeError
  | Caller token name params =>
      if TokenKind_eqb token TOKEN_STOCK_INFINITE then
        Model.infiniteStock model name
      else
        defaultInitial <- Formula.new (DefNumber 0) 0%float ;;
        defaultMaximum <- Formula.new DefInfinity 0%float ;;
        initial <- match params with
                   | p0 :: _ => Formula.new (DefToken p0) 0%float
                   | [] => Ok defaultInitial
                   end ;;
        maximum <- match params with
                   | _ :: p1 :: _ => Formula.new (DefToken p1) 0%float
                   | _ => Ok defaultMaximum
                   end ;;
        match Model.getStockRef model name with
        | Some ref =>
            exists_ <- Flow.deref (Model.stocks model) ref ;;
            new_initial <- reuse_value name initial defaultInitial
                             (Stock.initial exists_) ;;
            let exists_ := match new_initial with
                           | Some f => Stock.with_initial exists_ f
                           | None => exists_
                           end in
            new_maximum <- reuse_value name maximum defaultMaximum
                             (Stock.maximum exists_) ;;
            let exists_ := match new_maximum with
                           | Some f => Stock.with_maximum exists_ f
                           | None => exists_
                           end in
            Ok (ref, Model.with_stocks model
                       (update_at (Model.stocks model) ref exists_))
        | None => Model.stock model name (Some initial) (Some maximum) None
        end
  end.

Definition parseStock (model : Model.t) (txt : string) : res (nat * Model.t) :=
  token <- lexStock txt ;;
  buildStock model token.

(** The kind of the first token of the first parameter is what the
    automatic choice between [Conversion] and [Rate] looks at. *)
Definition single_decimal (params : ParamsToken) : bool :=
  match params with
  | [token] :: _ => TokenKind_eqb (kind_of token) TOKEN_DECIMAL
  | _ => false
  end.

(** [buildFlow]; every flow token of the lexer has a parameter, and
    without one the code builds a rate on [undefined] that fails at its
    first use. *)
Definition buildFlow (model : Model.t) (src dest : nat) (token : Token)
  : res Model.t :=
  match token with
  | Simple _ _ => Err TypeError
  | Caller _ classStr params =>
      let lowerClassStr := js.toLowerCase classStr in
      rateClass <-
        (if String.eqb lowerClassStr "leak" then Ok Leak
         else if String.eqb lowerClassStr "conversion" then Ok Conversion
         else if String.eqb lowerClassStr "rate" then Ok Rate
         else if String.eqb classStr "" then
           Ok (if single_decimal params then Conversion else Rate)
         else Err (UnknownFlowType classStr 0)) ;;
      match params with
      | p0 :: _ =>
          rate <- RateBase.new rateClass (DefToken p0) ;;
          Model.flow model src dest rate
      | [] => Err TypeError
      end
  end.

Definition parseFlow (model : Model.t) (src dest : nat) (txt : string)
  : res Model.t :=
  token <- lexFlow txt ;;
  buildFlow model src dest token.

Definition is_stock_token (t : Token) : bool :=
  match t with
  | Caller kind _ _ =>
      TokenKind_eqb kind TOKEN_STOCK || TokenKind_eqb kind TOKEN_STOCK_INFINITE
  | Simple kind _ =>
      TokenKind_eqb kind TOKEN_STOCK || TokenKind_eqb kind TOKEN_STOCK_INFINITE
  end.

Definition is_flow_token (t : Token) : bool :=
  match t with
  | Caller kind _ _ | Simple kind _ => TokenKind_eqb kind TOKEN_FLOW
  end.

(** The loop over the tokens of one line. *)
Fixpoint parse_line (m : Model.t) (line : list Token)
    (firstStock secondStock : option nat) : res Model.t :=
  match line with
  | [] => Ok m
  | lineToken :: rest =>
      if is_stock_token lineToken then
        match firstStock, secondStock with
        | None, _ =>
            '(s, m') <- buildStock m lineToken ;;
            parse_line m' rest (Some s) secondStock
        | Some _, None =>
            '(s, m') <- buildStock m lineToken ;;
            parse_line m' rest firstStock (Some s)
        | Some _, Some _ => parse_line m rest firstStock secondStock
        end
      else if is_flow_token lineToken then
        match firstStock, secondStock with
        | Some src, Some dest =>
            m' <- buildFlow m src dest lineToken ;;
            parse_line m' rest firstStock secondStock
        | _, _ => parse_line m rest firstStock secondStock
        end
      else parse_line m rest firstStock secondStock
  end.

(** The [catch] of [parse]: an error of class [DeferLineInfo] gets the
    line number, any other is wrapped in a [ParseError]. *)
Definition annotate (n : nat) (e : Error) : Error :=
  match e with
  | InvalidParameters txt _ => InvalidParameters txt n
  | ConflictingValues stockName _ => ConflictingValues stockName n
  | UnknownFlowType flowType _ => UnknownFlowType flowType n
  | _ => ParseError n e
  end.

Fixpoint parse_lines (m : Model.t) (tokens : list LineToken) : res Model.t :=
  match tokens with
  | [] => Ok m
  | token :: rest =>
      match parse_line m (lineTokens token) None None with
      | Ok m' => parse_lines m' rest
      | Err e => Err (annotate (lineNumber token) e)
      end
  end.

Definition parse (txt : string) : res Model.t :=
  tokens <- lex txt ;;
  parse_lines (Model.new "Parsed") tokens.

End parse.

(** * Properties *)

Import lexer.
Open Scope string_scope.
Open Scope list_scope.

(** ** Token trees *)

(** Induction on a token tree, with the hypothesis on every element of
    a nested formula. *)
Lemma Leaf_ind' (P : Leaf -> Prop) :
  (forall kind val, P (SimpleToken kind val)) ->
  (forall tokens, Forall P tokens -> P (SubFormula tokens)) ->
  forall t, P t.
Proof.
  intros Hs Hf.
  fix IH 1.
  intros [kind val | tokens].
  - apply Hs.
  - apply Hf.
    induction tokens as [| t ts IHts]; constructor.
    + apply IH.
    + exact IHts.
Qed.

Lemma TokenKind_eqb_eq (a b : TokenKind) : TokenKind_eqb a b = true <-> a = b.
Proof.
  split.
  - destruct a, b; simpl; intros H; try reflexivity; discriminate H.
  - intros ->. destruct b; reflexivity.
Qed.

Lemma TokenKind_eqb_refl (a : TokenKind) : TokenKind_eqb a a = true.
Proof. now apply TokenKind_eqb_eq. Qed.

Lemma Leaf_eqb_eq (a b : Leaf) : Leaf_eqb a b = true <-> a = b.
Proof.
  revert b.
  induction a as [k1 v1 | ts1 IH] using Leaf_ind'; intros [k2 v2 | ts2]; simpl.
  - rewrite andb_true_iff, TokenKind_eqb_eq, String.eqb_eq.
    split; [intros [-> ->]; reflexivity | intros H; inversion H; auto].
  - split; intros H; discriminate H.
  - split; intros H; discriminate H.
  - revert ts2.
    induction IH as [| t ts Ht _ IHts]; intros [| t2 ts2].
    + split; reflexivity.
    + split; intros H; discriminate H.
    + split; intros H; discriminate H.
    + rewrite andb_true_iff, Ht, IHts.
      split; [intros [-> H]; inversion H; reflexivity
             | intros H; inversion H; auto].
Qed.

Lemma FormulaToken_eqb_eq (a b : FormulaToken) :
  FormulaToken_eqb a b = true <-> a = b.
Proof.
  unfold FormulaToken_eqb. rewrite Leaf_eqb_eq.
  split; [intros H; inversion H; reflexivity | intros ->; reflexivity].
Qed.

Lemma FormulaToken_eqb_neq (a b : FormulaToken) :
  FormulaToken_eqb a b = false <-> a <> b.
Proof.
  rewrite <- FormulaToken_eqb_eq.
  destruct (FormulaToken_eqb a b); split; intros H; congruence.
Qed.

(** ** Formula.compute *)

(** The operator of an operation token, applied to the accumulator and
    the next value; an operator that is none of the four leaves the
    accumulator as it is. *)
Definition apply_operator (op : string) (a b : js.number) : js.number :=
  if String.eqb op "/" then (a / b)%float
  else if String.eqb op "*" then (a * b)%float
  else if String.eqb op "+" then (a + b)%float
  else if String.eqb op "-" then (a - b)%float
  else a.

(** The operator in force after a run of tokens. *)
Fixpoint last_op (tokens : list Leaf) (op : option string) : option string :=
  match tokens with
  | [] => op
  | SimpleToken TOKEN_OP valStr :: rest => last_op rest (Some valStr)
  | _ :: rest => last_op rest op
  end.

Lemma apply_op_operator (op : string) (a x : js.number) :
  Formula.apply_op (Some a) (Some op) x = Some (apply_operator op a x).
Proof.
  unfold apply_operator, Formula.apply_op.
  destruct op as [| c op]; [reflexivity |].
  destruct op as [| c' op'].
  - destruct c as [[] [] [] [] [] [] [] []]; reflexivity.
  - destruct c as [[] [] [] [] [] [] [] []]; reflexivity.
Qed.

Lemma compute_loop_op (v : Leaf -> res js.number) (valStr : string)
    (rest : list Leaf) (acc : option js.number) (op : option string) :
  Formula.compute_loop v (SimpleToken TOKEN_OP valStr :: rest) acc op
  = Formula.compute_loop v rest acc (Some valStr).
Proof. reflexivity. Qed.

Lemma compute_loop_value (v : Leaf -> res js.number) (token : Leaf)
    (rest : list Leaf) (acc : option js.number) (op : option string) :
  kind_of token <> TOKEN_OP ->
  Formula.compute_loop v (token :: rest) acc op
  = (val <- v token ;;
     Formula.compute_loop v rest (Formula.apply_op acc op val) op).
Proof.
  intros Hk.
  destruct token as [kind val | ts]; [| reflexivity].
  destruct kind; try reflexivity.
  now elim Hk.
Qed.

Lemma kind_of_op (t : Leaf) :
  {exists valStr, t = SimpleToken TOKEN_OP valStr} + {kind_of t <> TOKEN_OP}.
Proof.
  destruct t as [kind val | ts]; [| right; discriminate].
  destruct kind; try (right; discriminate).
  left. now exists val.
Qed.

Lemma apply_op_some (a : js.number) (op : option string) (x : js.number) :
  exists a', Formula.apply_op (Some a) op x = Some a'.
Proof.
  destruct op as [o |].
  - rewrite apply_op_operator. eauto.
  - simpl. eauto.
Qed.

Lemma last_op_value (t : Leaf) (rest : list Leaf) (op : option string) :
  kind_of t <> TOKEN_OP -> last_op (t :: rest) op = last_op rest op.
Proof.
  intros Hk. destruct t as [kind val | ts]; [| reflexivity].
  destruct kind; try reflexivity. now elim Hk.
Qed.

Lemma compute_loop_app (v : Leaf -> res js.number) (ts1 ts2 : list Leaf) :
  forall (acc : option js.number) (op : option string) (acc1 : option js.number),
  Formula.compute_loop v ts1 acc op = Ok acc1 ->
  Formula.compute_loop v (ts1 ++ ts2) acc op
  = Formula.compute_loop v ts2 acc1 (last_op ts1 op).
Proof.
  induction ts1 as [| t ts1 IH]; intros acc op acc1 H.
  - simpl in *. now inversion H.
  - destruct (kind_of_op t) as [[valStr ->] | Hk].
    + rewrite <- app_comm_cons, compute_loop_op.
      rewrite compute_loop_op in H. now apply IH.
    + rewrite <- app_comm_cons, compute_loop_value by assumption.
      rewrite compute_loop_value in H by assumption.
      rewrite last_op_value by assumption.
      destruct (v t) as [x |]; cbn [bind] in *; [now apply IH | discriminate H].
Qed.

Lemma compute_loop_some (v : Leaf -> res js.number) (ts : list Leaf) :
  forall (a : js.number) (op : option string) (r : option js.number),
  Formula.compute_loop v ts (Some a) op = Ok r -> exists a', r = Some a'.
Proof.
  induction ts as [| t ts IH]; intros a op r H.
  - simpl in H. inversion H. now exists a.
  - destruct (kind_of_op t) as [[valStr ->] | Hk].
    + rewrite compute_loop_op in H. now apply (IH a (Some valStr) r).
    + rewrite compute_loop_value in H by assumption.
      destruct (v t) as [x |]; cbn [bind] in H; [| discriminate H].
      destruct (apply_op_some a op x) as [a1 E]. rewrite E in H.
      now apply (IH a1 op r).
Qed.

Lemma validate_first_value (t : Leaf) (rest : list Leaf) :
  Formula.validate_tokens (t :: rest) = Ok tt -> kind_of t <> TOKEN_OP.
Proof.
  unfold Formula.validate_tokens. cbn [Formula.validate_loop].
  intros H Hk. rewrite Hk in H. discriminate H.
Qed.

Lemma compute_valid_some (v : Leaf -> res js.number) (tokens : list Leaf)
    (r : option js.number) :
  Formula.validate_tokens tokens = Ok tt ->
  Formula.compute_loop v tokens None None = Ok r ->
  exists a, r = Some a.
Proof.
  destruct tokens as [| t rest]; [discriminate |].
  intros Hv H.
  rewrite compute_loop_value in H by now apply (validate_first_value t rest).
  destruct (v t) as [x |]; cbn [bind] in H; [| discriminate H].
  now apply (compute_loop_some v rest x None r).
Qed.

(** C5: [compute] goes through the tokens from left to right without
    precedence: a valid formula of value [a] extended on the right by an
    operator and an operand of value [x] has the value of the operator
    applied to [a] and [x]; and "10 + 5 * 2" computes to 30, which is
    not 20. *)
Theorem compute_left_to_right :
  (forall (tokens : FormulaToken) (d : js.number) (state : StateMap)
          (op : string) (operand : Leaf) (a x : js.number),
      Formula.validate_tokens tokens = Ok tt ->
      Formula.compute {| Formula.lexed := tokens; Formula.default := d |} state
        = Ok a ->
      kind_of operand <> TOKEN_OP ->
      Formula.value_of state operand = Ok x ->
      Formula.compute
        {| Formula.lexed := tokens ++ [SimpleToken TOKEN_OP op; operand];
           Formula.default := d |} state
        = Ok (apply_operator op a x))
  /\ (exists f,
        Formula.new (DefString "10 + 5 * 2") 0%float = Ok f
        /\ (forall state, Formula.compute f state = Ok 30%float)
        /\ (30 =? 20)%float = false).
Proof.
  split.
  - intros tokens d state op operand a x Hv Hc Hk Hx.
    unfold Formula.compute in *. cbn [Formula.lexed Formula.default] in *.
    destruct (Formula.compute_loop (Formula.value_of state) tokens None None)
      as [r |] eqn:E; cbn [bind] in Hc; [| discriminate Hc].
    destruct (compute_valid_some _ _ _ Hv E) as [a' ->].
    cbn [Formula.or_default] in Hc. inversion Hc; subst a'.
    rewrite (compute_loop_app _ _ _ _ _ _ E).
    rewrite compute_loop_op, compute_loop_value by assumption.
    rewrite Hx. cbn [bind]. rewrite apply_op_operator. reflexivity.
  - eexists. split; [reflexivity |]. split; [| reflexivity].
    intros state. reflexivity.
Qed.

Lemma compute_left_to_right_witness :
  Formula.compute
    {| Formula.lexed :=
         [SimpleToken TOKEN_WHOLE "10"; SimpleToken TOKEN_OP "+";
          SimpleToken TOKEN_WHOLE "5"]
         ++ [SimpleToken TOKEN_OP "*"; SimpleToken TOKEN_WHOLE "2"];
       Formula.default := 0%float |} []
  = Ok (apply_operator "*" 15%float 2%float).
Proof.
  apply (proj1 compute_left_to_right); [reflexivity | reflexivity | | reflexivity].
  discriminate.
Defined.

(** C9: on an empty token list [compute] returns the default of the
    formula, whatever the state; the constructor, which validates, does
    not build such a formula. *)
Theorem compute_empty_returns_default :
  (forall (d : js.number) (state : StateMap),
      Formula.compute {| Formula.lexed := []; Formula.default := d |} state
      = Ok d)
  /\ (forall d : js.number,
        Formula.new (DefToken []) d
        = Err (InvalidFormula
                 "formula is empty. must specify a number or a reference"))
  /\ (forall d : js.number,
        Formula.new (DefString "") d
        = Err (InvalidFormula
                 "formula is empty. must specify a number or a reference")).
Proof.
  split; [| split]; intros; reflexivity.
Qed.

(** ** Formula.references *)

(** The names of all the reference leaves of a token tree, those of the
    nested formulas included, in the order of appearance: what the
    specification asks of [references]. *)
Fixpoint all_references (token : Leaf) : list string :=
  match token with
  | SimpleToken TOKEN_REFERENCE val => [val]
  | SimpleToken _ _ => []
  | SubFormula tokens => flat_map all_references tokens
  end.

Definition is_reference (token : Leaf) : bool :=
  match token with
  | SimpleToken TOKEN_REFERENCE _ => true
  | _ => false
  end.

Definition val_of (token : Leaf) : string :=
  match token with
  | SimpleToken _ val => val
  | SubFormula _ => ""
  end.

Definition is_nested (token : Leaf) : bool :=
  match token with
  | SubFormula _ => true
  | SimpleToken _ _ => false
  end.

Lemma references_top_level (f : Formula.t) :
  Formula.references f = map val_of (filter is_reference (Formula.lexed f)).
Proof.
  unfold Formula.references.
  induction (Formula.lexed f) as [| t ts IH]; [reflexivity |].
  destruct t as [kind val | sub]; [destruct kind |]; simpl; now rewrite IH.
Qed.

Lemma references_without_nesting (f : Formula.t) :
  forallb (fun t => negb (is_nested t)) (Formula.lexed f) = true ->
  Formula.references f = all_references (SubFormula (Formula.lexed f)).
Proof.
  unfold Formula.references. simpl.
  induction (Formula.lexed f) as [| t ts IH]; [reflexivity |].
  simpl. rewrite andb_true_iff. intros [Ht Hts].
  rewrite (IH Hts).
  destruct t as [kind val | sub]; [destruct kind; reflexivity | discriminate Ht].
Qed.

(** C3: [references] returns the names of the reference leaves of the
    top level of the formula only, in order and with duplicates; the
    references inside a parenthesized group are left out, so that on
    "(a + b) * c" it returns [c] and not [a, b, c]. *)
Theorem references_skip_nested_groups :
  (forall f : Formula.t,
      Formula.references f
      = map val_of (filter is_reference (Formula.lexed f)))
  /\ (exists f,
        Formula.new (DefString "(a + b) * c") 0%float = Ok f
        /\ Formula.references f = ["c"]
        /\ all_references (SubFormula (Formula.lexed f)) = ["a"; "b"; "c"]).
Proof.
  split.
  - exact references_top_level.
  - eexists. split; [reflexivity |]. split; reflexivity.
Qed.

(** ** Formulas that evaluate *)

(** A token tree on which [compute] raises nothing: the leaves have the
    kinds the lexer gives them and every nested formula passes
    [validate], which [compute] applies to it. *)
Fixpoint evaluable (token : Leaf) : bool :=
  match token with
  | SimpleToken kind _ =>
      match kind with
      | TOKEN_OP | TOKEN_WHOLE | TOKEN_INFINITY | TOKEN_DECIMAL
      | TOKEN_REFERENCE => true
      | _ => false
      end
  | SubFormula tokens =>
      match Formula.validate_tokens tokens with
      | Ok _ => forallb evaluable tokens
      | Err _ => false
      end
  end.

Definition well_formed (f : Formula.t) : Prop :=
  forallb evaluable (Formula.lexed f) = true.

Lemma compute_loop_total (v : Leaf -> res js.number) (tokens : list Leaf) :
  Forall (fun t => kind_of t <> TOKEN_OP -> exists x, v t = Ok x) tokens ->
  forall acc op, exists r, Formula.compute_loop v tokens acc op = Ok r.
Proof.
  induction 1 as [| t ts Ht _ IH]; intros acc op.
  - now exists acc.
  - destruct (kind_of_op t) as [[valStr ->] | Hk].
    + rewrite compute_loop_op. apply IH.
    + rewrite compute_loop_value by assumption.
      destruct (Ht Hk) as [x ->]. cbn [bind]. apply IH.
Qed.

Lemma value_of_total (state : StateMap) (token : Leaf) :
  evaluable token = true -> kind_of token <> TOKEN_OP ->
  exists x, Formula.value_of state token = Ok x.
Proof.
  induction token as [kind val | tokens IH] using Leaf_ind'; intros He Hk.
  - destruct kind; try discriminate He; try (now elim Hk); simpl; eauto.
  - cbn [evaluable] in He. cbn [Formula.value_of].
    destruct (Formula.validate_tokens tokens) as [u |]; [| discriminate He].
    cbn [bind].
    destruct (compute_loop_total (Formula.value_of state) tokens) with
      (acc := @None js.number) (op := @None string) as [r ->].
    + rewrite forallb_forall in He. rewrite Forall_forall in *.
      intros t Hin. apply (IH t Hin). now apply He.
    + cbn [bind]. eauto.
Qed.

Lemma compute_total (f : Formula.t) (state : StateMap) :
  well_formed f -> exists x, Formula.compute f state = Ok x.
Proof.
  unfold well_formed, Formula.compute. intros H.
  destruct (compute_loop_total (Formula.value_of state) (Formula.lexed f)) with
    (acc := @None js.number) (op := @None string) as [r ->].
  - rewrite forallb_forall in H. rewrite Forall_forall.
    intros t Hin. now apply value_of_total, H.
  - cbn [bind]. eauto.
Qed.

(** ** Model.run *)

(** The formulas of the model evaluate and its flows hold stocks of
    the model. *)
Record model_well_formed (m : Model.t) : Prop := {
  wf_initial : Forall (fun s => well_formed (Stock.initial s)) (Model.stocks m);
  wf_maximum : Forall (fun s => well_formed (Stock.maximum s)) (Model.stocks m);
  wf_rate : Forall (fun f => well_formed (RateBase.formula (Flow.rate f)))
              (Model.flows m);
  wf_source : Forall (fun f => Flow.source f < List.length (Model.stocks m))
                (Model.flows m);
  wf_destination :
    Forall (fun f => Flow.destination f < List.length (Model.stocks m))
      (Model.flows m)
}.

Lemma deref_total (stocks : list Stock.t) (ref : nat) :
  ref < List.length stocks ->
  exists s, Flow.deref stocks ref = Ok s /\ In s stocks.
Proof.
  intros H. unfold Flow.deref.
  destruct (nth_error stocks ref) as [s |] eqn:E.
  - exists s. split; [reflexivity |]. now apply nth_error_In with ref.
  - apply nth_error_None in E. lia.
Qed.

Lemma calculate_total (r : RateBase.t) (state : StateMap)
    (src dest capacity : js.number) :
  well_formed (RateBase.formula r) ->
  exists rem add, RateBase.calculate r state src dest capacity = Ok (rem, add).
Proof.
  intros H. destruct (compute_total _ state H) as [ev Hev].
  unfold RateBase.calculate, RateBase.Rate_calculate,
    RateBase.Conversion_calculate, RateBase.Leak_calculate.
  destruct (RateBase.class r); rewrite Hev; cbn [bind].
  - destruct (0 <? src)%float; eauto.
  - match goal with |- context [if ?c then Ok _ else Ok _] => destruct c end;
      eauto.
  - eauto.
Qed.

Lemma process_flow_total (m : Model.t) (f : Flow.t)
    (sd : StateMap * list (string * js.number)) :
  model_well_formed m -> In f (Model.flows m) ->
  exists sd', State.process_flow m f sd = Ok sd'.
Proof.
  intros [Hi Hm Hr Hs Hd] Hin. rewrite Forall_forall in *.
  destruct sd as [state deferred]. unfold State.process_flow, Flow.change.
  destruct (deref_total _ _ (Hs f Hin)) as (src & -> & _).
  destruct (deref_total _ _ (Hd f Hin)) as (dst & -> & Hdst).
  cbn [bind].
  destruct (compute_total _ state (Hm dst Hdst)) as [cap ->]. cbn [bind].
  match goal with |- context [RateBase.calculate ?r ?s ?a ?b ?c] =>
    destruct (calculate_total r s a b c (Hr f Hin)) as (rem & add & ->)
  end.
  cbn [bind]. eauto.
Qed.

Lemma process_flows_total (m : Model.t) (fs : list Flow.t) :
  model_well_formed m -> incl fs (Model.flows m) ->
  forall sd, exists sd', State.process_flows m fs sd = Ok sd'.
Proof.
  intros Hwf. induction fs as [| f fs IH]; intros Hincl sd.
  - now exists sd.
  - cbn [State.process_flows].
    destruct (process_flow_total m f sd Hwf) as [sd1 ->].
    + apply Hincl. now left.
    + cbn [bind]. apply IH. intros x Hx. apply Hincl. now right.
Qed.

Lemma advance_total (m : Model.t) (state : StateMap) :
  model_well_formed m -> exists state', State.advance m state = Ok state'.
Proof.
  intros Hwf. unfold State.advance.
  destruct (process_flows_total m (rev (Model.flows m)) Hwf) with
    (sd := (state, @nil (string * js.number))) as [[st d] ->].
  - intros x Hx. now apply in_rev.
  - cbn [bind]. eauto.
Qed.

Lemma run_rounds_total (m : Model.t) (rounds : nat) :
  model_well_formed m ->
  forall state snapshots,
  exists rest,
    run_rounds m rounds state snapshots = Ok (snapshots ++ rest)
    /\ List.length rest = rounds.
Proof.
  intros Hwf. induction rounds as [| n IH]; intros state snapshots.
  - exists []. now rewrite app_nil_r.
  - cbn [run_rounds].
    destruct (advance_total m state Hwf) as [state' ->]. cbn [bind].
    destruct (IH state' (snapshots ++ [State.snapshot state'])) as (rest & -> & Hl).
    exists (State.snapshot state' :: rest).
    rewrite <- app_assoc. split; [reflexivity | simpl; lia].
Qed.

Lemma getStock_In (m : Model.t) (name : string) (s : Stock.t) :
  Model.getStock m name = Some s -> In s (Model.stocks m).
Proof.
  unfold Model.getStock.
  destruct (Model.getStockRef m name) as [ref |]; [| discriminate].
  apply nth_error_In.
Qed.

Lemma init_stock_total (s : Stock.t) (state : StateMap) :
  well_formed (Stock.initial s) ->
  exists state', State.init_stock s state = Ok state'.
Proof.
  intros H. unfold State.init_stock.
  destruct (compute_total _ state H) as [v ->]. cbn [bind]. eauto.
Qed.

Lemma init_outside_path_total (m : Model.t) (stocks : list Stock.t) :
  Forall (fun s => well_formed (Stock.initial s)) stocks ->
  forall state, exists state', State.init_outside_path m stocks state = Ok state'.
Proof.
  induction 1 as [| s ss Hs _ IH]; intros state.
  - now exists state.
  - cbn [State.init_outside_path].
    destruct (negb _); [| apply IH].
    destruct (init_stock_total s state Hs) as [st ->]. cbn [bind]. apply IH.
Qed.

Lemma init_path_total (m : Model.t) (names : list string) :
  Forall (fun s => well_formed (Stock.initial s)) (Model.stocks m) ->
  forall state, exists state', State.init_path m names state = Ok state'.
Proof.
  intros Hwf. rewrite Forall_forall in Hwf.
  induction names as [| name names IH]; intros state.
  - now exists state.
  - cbn [State.init_path].
    destruct (Model.getStock m name) as [s |] eqn:E; [| apply IH].
    destruct (init_stock_total s state) as [st ->].
    + apply Hwf. now apply getStock_In with name.
    + cbn [bind]. apply IH.
Qed.

Lemma State_new_total (m : Model.t) :
  model_well_formed m -> exists state, State.new m = Ok state.
Proof.
  intros [Hi _ _ _ _]. unfold State.new.
  destruct (init_outside_path_total m (Model.stocks m) Hi []) as [st ->].
  cbn [bind]. now apply init_path_total.
Qed.

Lemma validate_same_model (m m' : Model.t) :
  Model.validate m = Ok m' ->
  Model.stocks m' = Model.stocks m /\ Model.flows m' = Model.flows m.
Proof.
  unfold Model.validate, Model.validateInitialCycles.
  destruct (Model.validateExistingStocks m); cbn [bind]; [| discriminate].
  destruct (Model.reference_graphs m) as [[inw outw] |]; cbn [bind];
    [| discriminate].
  destruct (algos.findCycles inw outw) as [[result [inw' outw']] |];
    cbn [bind]; [| discriminate].
  destruct (algos.hasCycle result); [discriminate |].
  intros H. inversion H. split; reflexivity.
Qed.

Lemma validate_well_formed (m m' : Model.t) :
  Model.validate m = Ok m' -> model_well_formed m -> model_well_formed m'.
Proof.
  intros Hv [Hi Hm Hr Hs Hd].
  destruct (validate_same_model m m' Hv) as [Es Ef].
  split; rewrite ?Es, ?Ef; assumption.
Qed.

(** C4, as the code has it: for a model that passes validation and whose
    formulas evaluate (every nested group is a valid formula), [run(n)]
    returns n + 1 snapshots, the first of which is the state that
    [new State(model)] builds. *)
Theorem run_returns_snapshots (m m' : Model.t) (n : nat) :
  Model.validate m = Ok m' ->
  model_well_formed m ->
  exists s0 rest,
    State.new m' = Ok s0
    /\ Model_run m n = Ok (State.snapshot s0 :: rest)
    /\ List.length (State.snapshot s0 :: rest) = n + 1.
Proof.
  intros Hv Hwf.
  pose proof (validate_well_formed m m' Hv Hwf) as Hwf'.
  destruct (State_new_total m' Hwf') as [s0 Hs0].
  destruct (run_rounds_total m' n Hwf' s0 [State.snapshot s0])
    as (rest & Hrun & Hlen).
  exists s0, rest. split; [exact Hs0 |].
  unfold Model_run. rewrite Hv. cbn [bind]. rewrite Hs0. cbn [bind].
  split; [exact Hrun | simpl; lia].
Qed.

(** The model of the text "a(10) > b @ 5". *)
Definition two_stock_model : Model.t :=
  {| Model.name := "Parsed";
     Model.stocks :=
       [ {| Stock.name := "a";
            Stock.initial := {| Formula.lexed := [SimpleToken TOKEN_WHOLE "10"];
                                Formula.default := 0%float |};
            Stock.maximum := {| Formula.lexed := [SimpleToken TOKEN_INFINITY "inf"];
                                Formula.default := 0%float |};
            Stock.show := true |};
         {| Stock.name := "b";
            Stock.initial := {| Formula.lexed := [SimpleToken TOKEN_WHOLE "0"];
                                Formula.default := 0%float |};
            Stock.maximum := {| Formula.lexed := [SimpleToken TOKEN_INFINITY "inf"];
                                Formula.default := 0%float |};
            Stock.show := true |} ];
     Model.flows :=
       [ {| Flow.source := 0; Flow.destination := 1;
            Flow.rate :=
              {| RateBase.class := Rate;
                 RateBase.formula :=
                   {| Formula.lexed := [SimpleToken TOKEN_WHOLE "5"];
                      Formula.default := 0%float |} |} |} ];
     Model.initialPath := [] |}.

Lemma two_stock_model_parsed :
  parse.parse "a(10) > b @ 5" = Ok two_stock_model.
Proof. reflexivity. Qed.

Lemma two_stock_model_well_formed : model_well_formed two_stock_model.
Proof.
  split; simpl; repeat constructor.
Qed.

Lemma run_returns_snapshots_witness :
  exists s0 rest,
    State.new two_stock_model = Ok s0
    /\ Model_run two_stock_model 3 = Ok (State.snapshot s0 :: rest)
    /\ List.length (State.snapshot s0 :: rest) = 3 + 1.
Proof.
  apply (run_returns_snapshots two_stock_model two_stock_model 3).
  - reflexivity.
  - exact two_stock_model_well_formed.
Defined.

(** A model that passes validation and whose run raises: the nested
    group of "a(())" is empty, which [validate] sees only when [compute]
    builds the nested formula. *)
Lemma run_raises_after_validation :
  exists m m',
    parse.parse "a(())" = Ok m
    /\ Model.validate m = Ok m'
    /\ forall n,
         Model_run m n
         = Err (InvalidFormula
                  "formula is empty. must specify a number or a reference").
Proof.
  eexists. eexists. split; [reflexivity |]. split; [reflexivity |].
  intros n. reflexivity.
Qed.

(** ** buildStock *)

Definition default_initial : Formula.t :=
  {| Formula.lexed := [SimpleToken TOKEN_WHOLE "0"]; Formula.default := 0%float |}.

Definition default_maximum : Formula.t :=
  {| Formula.lexed := [SimpleToken TOKEN_INFINITY "inf"];
     Formula.default := 0%float |}.

Lemma new_default_initial :
  Formula.new (DefNumber 0) 0%float = Ok default_initial.
Proof. reflexivity. Qed.

Lemma new_default_maximum :
  Formula.new DefInfinity 0%float = Ok default_maximum.
Proof. reflexivity. Qed.

Lemma new_of_token (value : FormulaToken) (d : js.number) :
  Formula.validate_tokens value = Ok tt ->
  Formula.new (DefToken value) d
  = Ok {| Formula.lexed := value; Formula.default := d |}.
Proof.
  intros H. unfold Formula.new, Formula.validate. cbn [bind Formula.lexed].
  now rewrite H.
Qed.

Lemma FormulaToken_eqb_refl (a : FormulaToken) : FormulaToken_eqb a a = true.
Proof. now apply FormulaToken_eqb_eq. Qed.

Lemma reuse_value_fill (name : string) (value default current : Formula.t) :
  Formula.lexed value <> Formula.lexed default ->
  Formula.lexed current = Formula.lexed default ->
  parse.reuse_value name value default current = Ok (Some value).
Proof.
  intros Hn Hc. unfold parse.reuse_value.
  assert (E1 : FormulaToken_eqb (Formula.lexed value) (Formula.lexed default)
               = false) by now apply FormulaToken_eqb_neq.
  assert (E2 : FormulaToken_eqb (Formula.lexed current) (Formula.lexed value)
               = false) by (apply FormulaToken_eqb_neq; congruence).
  rewrite E1, E2, Hc, FormulaToken_eqb_refl. reflexivity.
Qed.

Lemma reuse_value_conflict (name : string) (value default current : Formula.t) :
  Formula.lexed value <> Formula.lexed default ->
  Formula.lexed current <> Formula.lexed default ->
  parse.reuse_value name value default current = Err (ConflictingValues name 0).
Proof.
  intros Hn Hc. unfold parse.reuse_value.
  apply FormulaToken_eqb_neq in Hn. rewrite Hn. cbn [negb].
  apply FormulaToken_eqb_neq in Hc. rewrite Hc.
  now rewrite andb_false_r.
Qed.

Lemma reuse_value_default (name : string) (default current : Formula.t) :
  parse.reuse_value name default default current = Ok None.
Proof.
  unfold parse.reuse_value. now rewrite FormulaToken_eqb_refl.
Qed.

Lemma buildStock_existing (model : Model.t) (name : string) (ref : nat)
    (exists_ : Stock.t) (params : ParamsToken) (initial maximum : Formula.t) :
  Model.getStockRef model name = Some ref ->
  nth_error (Model.stocks model) ref = Some exists_ ->
  match params with
  | p0 :: _ => Formula.new (DefToken p0) 0%float
  | [] => Ok default_initial
  end = Ok initial ->
  match params with
  | _ :: p1 :: _ => Formula.new (DefToken p1) 0%float
  | _ => Ok default_maximum
  end = Ok maximum ->
  parse.buildStock model (Caller TOKEN_STOCK name params)
  = (new_initial <- parse.reuse_value name initial default_initial
                      (Stock.initial exists_) ;;
     let updated1 := match new_initial with
                    | Some f => Stock.with_initial exists_ f
                    | None => exists_
                    end in
     new_maximum <- parse.reuse_value name maximum default_maximum
                      (Stock.maximum updated1) ;;
     let updated2 := match new_maximum with
                    | Some f => Stock.with_maximum updated1 f
                    | None => updated1
                    end in
     Ok (ref, Model.with_stocks model
                (parse.update_at (Model.stocks model) ref updated2))).
Proof.
  intros Hget Hnth Hi Hm. unfold parse.buildStock.
  cbn [TokenKind_eqb]. rewrite new_default_initial, new_default_maximum.
  cbn [bind]. rewrite Hi. cbn [bind]. rewrite Hm. cbn [bind].
  rewrite Hget. unfold Flow.deref. rewrite Hnth. reflexivity.
Qed.

(** C7: a stock declared again.  A non-default initial value, or
    maximum, given to a stock that still has the default is written
    into the stock without error; given to a stock whose value is not
    the default any more (the same value or another) it raises
    [ConflictingValues] with the name of the stock.  After "a > b @ 5"
    and "b(10) > c @ 3" the initial formula of [b] computes to 10, and
    "a(10) > b @ 5" followed by "a(20) > c @ 3" raises
    [ConflictingValues] for [a]. *)
Theorem buildStock_redeclaration :
  (forall model name ref exists_ value,
      Model.getStockRef model name = Some ref ->
      nth_error (Model.stocks model) ref = Some exists_ ->
      Formula.validate_tokens value = Ok tt ->
      value <> Formula.lexed default_initial ->
      Formula.lexed (Stock.initial exists_) = Formula.lexed default_initial ->
      parse.buildStock model (Caller TOKEN_STOCK name [value])
      = Ok (ref,
            Model.with_stocks model
              (parse.update_at (Model.stocks model) ref
                 (Stock.with_initial exists_
                    {| Formula.lexed := value; Formula.default := 0%float |}))))
  /\ (forall model name ref exists_ value,
        Model.getStockRef model name = Some ref ->
        nth_error (Model.stocks model) ref = Some exists_ ->
        Formula.validate_tokens value = Ok tt ->
        value <> Formula.lexed default_initial ->
        Formula.lexed (Stock.initial exists_) <> Formula.lexed default_initial ->
        parse.buildStock model (Caller TOKEN_STOCK name [value])
        = Err (ConflictingValues name 0))
  /\ (forall model name ref exists_ value,
        Model.getStockRef model name = Some ref ->
        nth_error (Model.stocks model) ref = Some exists_ ->
        Formula.validate_tokens value = Ok tt ->
        value <> Formula.lexed default_maximum ->
        Formula.lexed (Stock.maximum exists_) = Formula.lexed default_maximum ->
        parse.buildStock model
          (Caller TOKEN_STOCK name [Formula.lexed default_initial; value])
        = Ok (ref,
              Model.with_stocks model
                (parse.update_at (Model.stocks model) ref
                   (Stock.with_maximum exists_
                      {| Formula.lexed := value; Formula.default := 0%float |}))))
  /\ (forall model name ref exists_ value,
        Model.getStockRef model name = Some ref ->
        nth_error (Model.stocks model) ref = Some exists_ ->
        Formula.validate_tokens value = Ok tt ->
        value <> Formula.lexed default_maximum ->
        Formula.lexed (Stock.maximum exists_) <> Formula.lexed default_maximum ->
        parse.buildStock model
          (Caller TOKEN_STOCK name [Formula.lexed default_initial; value])
        = Err (ConflictingValues name 0))
  /\ (exists m b,
        parse.parse "a > b @ 5
b(10) > c @ 3" = Ok m
        /\ Model.getStock m "b" = Some b
        /\ Formula.compute (Stock.initial b) [] = Ok 10%float)
  /\ parse.parse "a(10) > b @ 5
a(20) > c @ 3" = Err (ConflictingValues "a" 2).
Proof.
  split; [| split; [| split; [| split; [| split]]]].
  - intros model name ref exists_ value Hget Hnth Hv Hn Hd.
    rewrite (buildStock_existing model name ref exists_ [value]
               {| Formula.lexed := value; Formula.default := 0%float |}
               default_maximum Hget Hnth (new_of_token value 0%float Hv) eq_refl).
    rewrite reuse_value_fill by assumption. cbn [bind].
    rewrite reuse_value_default. reflexivity.
  - intros model name ref exists_ value Hget Hnth Hv Hn Hd.
    rewrite (buildStock_existing model name ref exists_ [value]
               {| Formula.lexed := value; Formula.default := 0%float |}
               default_maximum Hget Hnth (new_of_token value 0%float Hv) eq_refl).
    now rewrite reuse_value_conflict.
  - intros model name ref exists_ value Hget Hnth Hv Hn Hd.
    rewrite (buildStock_existing model name ref exists_
               [Formula.lexed default_initial; value] default_initial
               {| Formula.lexed := value; Formula.default := 0%float |}
               Hget Hnth eq_refl (new_of_token value 0%float Hv)).
    rewrite reuse_value_default. cbn [bind].
    rewrite reuse_value_fill by assumption. reflexivity.
  - intros model name ref exists_ value Hget Hnth Hv Hn Hd.
    rewrite (buildStock_existing model name ref exists_
               [Formula.lexed default_initial; value] default_initial
               {| Formula.lexed := value; Formula.default := 0%float |}
               Hget Hnth eq_refl (new_of_token value 0%float Hv)).
    rewrite reuse_value_default. cbn [bind].
    now rewrite reuse_value_conflict.
  - eexists. eexists. split; [vm_compute; reflexivity |].
    split; [vm_compute; reflexivity |]. vm_compute. reflexivity.
  - vm_compute. reflexivity.
Qed.

(** The model that "a > b @ 5" gives: [b] has the default initial value. *)
Definition model_a_b : Model.t :=
  {| Model.name := "Parsed";
     Model.stocks :=
       [ {| Stock.name := "a"; Stock.initial := default_initial;
            Stock.maximum := default_maximum; Stock.show := true |};
         {| Stock.name := "b"; Stock.initial := default_initial;
            Stock.maximum := default_maximum; Stock.show := true |} ];
     Model.flows :=
       [ {| Flow.source := 0; Flow.destination := 1;
            Flow.rate :=
              {| RateBase.class := Rate;
                 RateBase.formula :=
                   {| Formula.lexed := [SimpleToken TOKEN_WHOLE "5"];
                      Formula.default := 0%float |} |} |} ];
     Model.initialPath := [] |}.

Lemma model_a_b_parsed : parse.parse "a > b @ 5" = Ok model_a_b.
Proof. reflexivity. Qed.

Lemma buildStock_redeclaration_witness :
  parse.buildStock model_a_b
    (Caller TOKEN_STOCK "b" [[SimpleToken TOKEN_WHOLE "10"]])
  = Ok (1,
        Model.with_stocks model_a_b
          (parse.update_at (Model.stocks model_a_b) 1
             (Stock.with_initial
                {| Stock.name := "b"; Stock.initial := default_initial;
                   Stock.maximum := default_maximum; Stock.show := true |}
                {| Formula.lexed := [SimpleToken TOKEN_WHOLE "10"];
                   Formula.default := 0%float |}))).
Proof.
  apply (proj1 buildStock_redeclaration);
    [reflexivity | reflexivity | reflexivity | discriminate | reflexivity].
Defined.

(** Declaring a stock again with the value it already has is a conflict
    too. *)
Lemma same_value_again_conflicts :
  parse.parse "a(10) > b @ 5
a(10) > c @ 3" = Err (ConflictingValues "a" 2).
Proof. reflexivity. Qed.

(** ** Formula.validate *)

(** The shape that [validate] accepts: values and operations alternate,
    from a value to a value.  [expect_value] tells which of the two
    comes next. *)
Fixpoint alternates (expect_value : bool) (tokens : list Leaf) : bool :=
  match tokens with
  | [] => negb expect_value
  | t :: rest =>
      if TokenKind_eqb (kind_of t) TOKEN_OP
      then negb expect_value && alternates true rest
      else expect_value && alternates false rest
  end.

Definition expects_value (prevKind : option TokenKind) : bool :=
  match prevKind with
  | None => true
  | Some kind => TokenKind_eqb kind TOKEN_OP
  end.

Lemma validate_loop_alternates (tokens : list Leaf) :
  forall prevKind : option TokenKind,
    alternates (expects_value prevKind) tokens
    = match Formula.validate_loop tokens prevKind with
      | Ok last => negb (expects_value last)
      | Err _ => false
      end.
Proof.
  induction tokens as [| t rest IH]; intros prevKind; [reflexivity |].
  cbn [Formula.validate_loop alternates].
  specialize (IH (Some (kind_of t))). cbn [expects_value] in IH.
  destruct (TokenKind_eqb (kind_of t) TOKEN_OP) eqn:Ek.
  - destruct prevKind as [prev |]; [| reflexivity]. cbn [expects_value].
    destruct (TokenKind_eqb prev TOKEN_OP); [reflexivity | exact IH].
  - destruct prevKind as [prev |]; cbn [expects_value]; [| exact IH].
    destruct (TokenKind_eqb prev TOKEN_OP); [exact IH | reflexivity].
Qed.

Lemma validate_loop_last (tokens : list Leaf) :
  forall (kind : TokenKind) (last : option TokenKind),
    Formula.validate_loop tokens (Some kind) = Ok last ->
    exists k, last = Some k.
Proof.
  induction tokens as [| t rest IH]; intros kind last H.
  - inversion H. eauto.
  - cbn [Formula.validate_loop] in H.
    destruct (TokenKind_eqb (kind_of t) TOKEN_OP);
      destruct (TokenKind_eqb kind TOKEN_OP); cbn [negb] in H;
        try discriminate H; now apply IH with (kind_of t).
Qed.

Lemma validate_tokens_alternates (tokens : FormulaToken) :
  Formula.validate_tokens tokens = Ok tt <-> alternates true tokens = true.
Proof.
  destruct tokens as [| t rest].
  - split; discriminate.
  - unfold Formula.validate_tokens.
    pose proof (validate_loop_alternates (t :: rest) None) as Ha.
    cbn [expects_value] in Ha. rewrite Ha. clear Ha.
    destruct (Formula.validate_loop (t :: rest) None) as [last |] eqn:E;
      cbn [bind]; [| split; discriminate].
    assert (exists k, last = Some k) as [k ->].
    { cbn [Formula.validate_loop] in E.
      destruct (TokenKind_eqb (kind_of t) TOKEN_OP); [discriminate E |].
      now apply validate_loop_last with rest (kind_of t). }
    cbn [Formula.is_op expects_value].
    destruct (TokenKind_eqb k TOKEN_OP); split; intros H;
      try reflexivity; discriminate H.
Qed.

(** X1: [validate] accepts a token list exactly when values and
    operations alternate in it from a first value to a last value: it
    is not empty, it neither starts nor ends with an operation, and no
    two operations and no two values are adjacent.  A nested group
    counts as one value, whatever it holds. *)
Theorem validate_accepts_alternations (f : Formula.t) :
  Formula.validate f = Ok tt <-> alternates true (Formula.lexed f) = true.
Proof. apply validate_tokens_alternates. Qed.

(** ** Objects *)

Lemma get_set_same {V : Type} (o : js.object V) (k : string) (v : V) :
  js.get (js.set o k v) k = Some v.
Proof.
  induction o as [| [k' v'] o IH]; simpl.
  - now rewrite String.eqb_refl.
  - destruct (String.eqb k' k) eqn:E; simpl; rewrite E; [reflexivity | exact IH].
Qed.

Lemma get_set_other {V : Type} (o : js.object V) (k k' : string) (v : V) :
  k <> k' -> js.get (js.set o k v) k' = js.get o k'.
Proof.
  intros Hne. induction o as [| [k0 v0] o IH]; simpl.
  - apply String.eqb_neq in Hne. now rewrite Hne.
  - destruct (String.eqb k0 k) eqn:E; simpl.
    + apply String.eqb_eq in E. subst k0.
      apply String.eqb_neq in Hne. now rewrite Hne.
    + now rewrite IH.
Qed.

Lemma get_in_keys {V : Type} (o : js.object V) (k : string) :
  In k (js.keys o) <-> exists v, js.get o k = Some v.
Proof.
  induction o as [| [k0 v0] o IH]; simpl.
  - split; [intros [] | intros [v H]; discriminate H].
  - destruct (String.eqb k0 k) eqn:E.
    + apply String.eqb_eq in E. split; eauto.
    + rewrite IH. apply String.eqb_neq in E.
      split; [intros [H | H]; [contradiction | exact H] | auto].
Qed.


Lemma keys_set_in {V : Type} (o : js.object V) (k : string) (v : V) :
  In k (js.keys o) -> js.keys (js.set o k v) = js.keys o.
Proof.
  induction o as [| [k0 v0] o IH]; simpl; [intros [] |].
  destruct (String.eqb k0 k) eqn:E; simpl; [reflexivity |].
  apply String.eqb_neq in E.
  intros [H | H]; [contradiction |]. f_equal. now apply IH.
Qed.





Lemma lookup_set (state : StateMap) (k k' : string) (v : js.number) :
  lookup (js.set state k v) k' = if String.eqb k k' then v else lookup state k'.
Proof.
  unfold lookup. destruct (String.eqb k k') eqn:E.
  - apply String.eqb_eq in E. subst k'. now rewrite get_set_same.
  - apply String.eqb_neq in E. now rewrite get_set_other.
Qed.

(** ** The keys of the state *)



Lemma find_from_none (stocks : list Stock.t) (name : string) :
  forall pos,
    Model.find_from stocks name pos = None
    <-> ~ In name (map Stock.name stocks).
Proof.
  induction stocks as [| s0 rest IH]; intros pos; simpl; [tauto |].
  destruct (String.eqb (Stock.name s0) name) eqn:E.
  - apply String.eqb_eq in E. split; [discriminate | intros H; elim H; auto].
  - apply String.eqb_neq in E. rewrite IH. tauto.
Qed.
















(** ** Model.validate *)








(** ** Flows from an infinite stock *)

Lemma infiniteStock_pushes (m : Model.t) (name : string) :
  Model.infiniteStock m name
  = Ok (List.length (Model.stocks m),
        Model.with_stocks m
          (Model.stocks m
           ++ [ {| Stock.name := name; Stock.initial := default_maximum;
                   Stock.maximum := default_maximum; Stock.show := false |} ])).
Proof. reflexivity. Qed.




(** ** lexFormula *)

(** Reading from left to right with [depth] parentheses open, a closing
    parenthesis comes when none is open. *)
Fixpoint unmatched_close (cs : string) (depth : nat) : bool :=
  match cs with
  | EmptyString => false
  | String c cs' =>
      if Ascii.eqb c START_PAREN then unmatched_close cs' (S depth)
      else if Ascii.eqb c END_PAREN then
        match depth with
        | O => true
        | S depth' => unmatched_close cs' depth'
        end
      else unmatched_close cs' depth
  end.

Lemma lexFormula_loop_result (cs : string) :
  forall (groups : list (list Leaf)) (tokens : list Leaf) (acc : string),
    match lexFormula_loop cs groups tokens acc with
    | Ok _ => unmatched_close cs (List.length groups) = false
    | Err e => e = TypeError /\ unmatched_close cs (List.length groups) = true
    end.
Proof.
  induction cs as [| c cs IH]; intros groups tokens acc; [reflexivity |].
  cbn [lexFormula_loop unmatched_close].
  destruct (Ascii.eqb c START_PAREN); [apply (IH (tokens :: groups)) |].
  destruct (Ascii.eqb c END_PAREN).
  - destruct groups as [| prevTokens groups']; [split; reflexivity |].
    apply IH.
  - destruct (Ascii.eqb c WHITESPACE || Ascii.eqb c NEWLINE); [apply IH |].
    destruct (OPERATIONS c); apply IH.
Qed.

(** The kinds that the lexer gives to the elements of a formula. *)
Fixpoint lexed_kinds (token : Leaf) : bool :=
  match token with
  | SimpleToken kind _ =>
      match kind with
      | TOKEN_OP | TOKEN_WHOLE | TOKEN_INFINITY | TOKEN_DECIMAL
      | TOKEN_REFERENCE => true
      | _ => false
      end
  | SubFormula tokens => forallb lexed_kinds tokens
  end.

Lemma lexValue_kinds (txt : string) : lexed_kinds (lexValue txt) = true.
Proof.
  unfold lexValue.
  destruct (String.eqb (js.trim txt) INFINITY); [reflexivity |].
  destruct (PARAM_WHOLE (js.trim txt)); [reflexivity |].
  destruct (PARAM_DECIMAL (js.trim txt)); reflexivity.
Qed.

Lemma flush_kinds (tokens : list Leaf) (acc : string) :
  forallb lexed_kinds tokens = true ->
  forallb lexed_kinds (flush tokens acc) = true.
Proof.
  intros H. destruct acc as [| c acc]; [exact H |].
  cbn [flush]. rewrite forallb_app, H. cbn [forallb].
  now rewrite lexValue_kinds.
Qed.

Lemma lexFormula_loop_kinds (cs : string) :
  forall (groups : list (list Leaf)) (tokens : list Leaf) (acc : string)
         (result : FormulaToken),
    forallb (forallb lexed_kinds) groups = true ->
    forallb lexed_kinds tokens = true ->
    lexFormula_loop cs groups tokens acc = Ok result ->
    forallb lexed_kinds result = true.
Proof.
  induction cs as [| c cs IH]; intros groups tokens acc result Hg Ht H.
  - inversion H; subst. exact Ht.
  - cbn [lexFormula_loop] in H.
    destruct (Ascii.eqb c START_PAREN).
    { apply (IH (tokens :: groups) [] acc); [| reflexivity | exact H].
      cbn [forallb]. now rewrite Ht, Hg. }
    destruct (Ascii.eqb c END_PAREN).
    { destruct groups as [| prevTokens groups']; [discriminate H |].
      cbn [forallb] in Hg. apply andb_true_iff in Hg. destruct Hg as [Hp Hg].
      apply (IH groups' (prevTokens ++ [SubFormula (flush tokens acc)]) "");
        [exact Hg | | exact H].
      rewrite forallb_app, Hp. cbn [forallb lexed_kinds].
      now rewrite flush_kinds. }
    destruct (Ascii.eqb c WHITESPACE || Ascii.eqb c NEWLINE).
    { apply (IH groups (flush tokens acc) ""); [exact Hg | | exact H].
      now apply flush_kinds. }
    destruct (OPERATIONS c).
    { apply (IH groups (flush tokens acc ++ [SimpleToken TOKEN_OP (str c)]) "");
        [exact Hg | | exact H].
      rewrite forallb_app, flush_kinds by assumption. reflexivity. }
    now apply (IH groups tokens (acc ++ str c)%string).
Qed.

Lemma compute_loop_errors (v : Leaf -> res js.number) (tokens : list Leaf) :
  Forall (fun t => kind_of t <> TOKEN_OP ->
                   forall e, v t = Err e -> exists msg, e = InvalidFormula msg)
    tokens ->
  forall acc op e,
    Formula.compute_loop v tokens acc op = Err e ->
    exists msg, e = InvalidFormula msg.
Proof.
  induction 1 as [| t ts Ht _ IH]; intros acc op e H; [discriminate H |].
  destruct (kind_of_op t) as [[valStr ->] | Hk].
  - rewrite compute_loop_op in H. now apply IH in H.
  - rewrite compute_loop_value in H by assumption.
    destruct (v t) as [x |] eqn:E; cbn [bind] in H.
    + now apply IH in H.
    + inversion H; subst. now apply (Ht Hk).
Qed.

Lemma validate_tokens_errors (tokens : FormulaToken) (e : Error) :
  Formula.validate_tokens tokens = Err e -> exists msg, e = InvalidFormula msg.
Proof.
  unfold Formula.validate_tokens.
  destruct tokens as [| t rest]; [intros H; inversion H; eauto |].
  generalize (t :: rest) (@None TokenKind). intros ts prev.
  destruct (Formula.validate_loop ts prev) as [last |] eqn:E; cbn [bind].
  - destruct (Formula.is_op last); intros H; inversion H; eauto.
  - intros H. inversion H; subst. clear H. revert prev E.
    induction ts as [| t' ts' IH]; intros prev E; [discriminate E |].
    cbn [Formula.validate_loop] in E.
    destruct (TokenKind_eqb (kind_of t') TOKEN_OP).
    + destruct prev as [p |]; [| inversion E; eauto].
      destruct (TokenKind_eqb p TOKEN_OP); [inversion E; eauto |].
      now apply IH in E.
    + destruct prev as [p |]; [| now apply IH in E].
      destruct (negb (TokenKind_eqb p TOKEN_OP)); [inversion E; eauto |].
      now apply IH in E.
Qed.

Lemma value_of_errors (state : StateMap) (token : Leaf) :
  lexed_kinds token = true -> kind_of token <> TOKEN_OP ->
  forall e, Formula.value_of state token = Err e ->
            exists msg, e = InvalidFormula msg.
Proof.
  induction token as [kind val | tokens IH] using Leaf_ind'; intros Hl Hk e H.
  - destruct kind; try discriminate Hl; try (now elim Hk); discriminate H.
  - cbn [lexed_kinds] in Hl. cbn [Formula.value_of] in H.
    destruct (Formula.validate_tokens tokens) as [u |] eqn:Ev; cbn [bind] in H.
    + destruct (Formula.compute_loop (Formula.value_of state) tokens None None)
        as [r |] eqn:Ec; cbn [bind] in H; [discriminate H |].
      inversion H; subst.
      apply (compute_loop_errors (Formula.value_of state) tokens) with
        (acc := @None js.number) (op := @None string); [| exact Ec].
      rewrite forallb_forall in Hl. rewrite Forall_forall in *.
      intros t Hin. apply (IH t Hin). now apply Hl.
    + inversion H; subst. now apply validate_tokens_errors with tokens.
Qed.

(** X6: [lexFormula] fails exactly when, reading the trimmed text from
    left to right, a closing parenthesis comes with no parenthesis open,
    and the failure is a [TypeError]; an opening parenthesis that is
    never closed is accepted.  The tokens it returns have, at every
    depth, the kinds operation, whole, decimal, infinity and reference,
    so that [compute] on them never raises the error
    "This should be unreachable": what it raises is an [InvalidFormula]
    of a nested group. *)
Theorem lexFormula_failures (txt : string) :
  match lexFormula txt with
  | Ok tokens =>
      unmatched_close (js.trim txt ++ str NEWLINE) 0 = false
      /\ forall (d : js.number) (state : StateMap) (e : Error),
           Formula.compute {| Formula.lexed := tokens; Formula.default := d |}
             state = Err e ->
           exists msg, e = InvalidFormula msg
  | Err e =>
      e = TypeError /\ unmatched_close (js.trim txt ++ str NEWLINE) 0 = true
  end.
Proof.
  unfold lexFormula.
  pose proof (lexFormula_loop_result (js.trim txt ++ str NEWLINE) [] [] "") as Hr.
  destruct (lexFormula_loop (js.trim txt ++ str NEWLINE) [] [] "")
    as [tokens |] eqn:E; [| exact Hr].
  split; [exact Hr |].
  intros d state e. unfold Formula.compute. cbn [Formula.lexed].
  destruct (Formula.compute_loop (Formula.value_of state) tokens None None)
    as [r |] eqn:Ec; cbn [bind]; [discriminate |].
  intros H. inversion H; subst.
  apply (compute_loop_errors (Formula.value_of state) tokens) with
    (acc := @None js.number) (op := @None string); [| exact Ec].
  pose proof (lexFormula_loop_kinds _ [] [] "" tokens eq_refl eq_refl E) as Hk.
  rewrite forallb_forall in Hk. rewrite Forall_forall.
  intros t Hin Hop. apply value_of_errors; [now apply Hk | exact Hop].
Qed.

(** ** The errors of the lexer *)

(** The two errors that the lexer raises on a text. *)
Definition lexer_error (e : Error) : Prop :=
  e = TypeError \/ exists s, e = IllegalStockName s.

Lemma lexFormula_error (txt : string) (e : Error) :
  lexFormula txt = Err e -> e = TypeError.
Proof.
  unfold lexFormula. intros H.
  pose proof (lexFormula_loop_result (js.trim txt ++ str NEWLINE) [] [] "") as Hr.
  rewrite H in Hr. apply Hr.
Qed.

Lemma mapM_error {A B : Type} (f : A -> res B) (P : Error -> Prop)
    (xs : list A) (e : Error) :
  (forall x e', f x = Err e' -> P e') -> mapM f xs = Err e -> P e.
Proof.
  intros Hf. induction xs as [| x xs IH]; cbn [mapM]; [discriminate |].
  destruct (f x) as [y |] eqn:E; cbn [bind].
  - destruct (mapM f xs) as [ys |]; cbn [bind]; [discriminate |].
    intros H. inversion H; subst. now apply IH.
  - intros H. inversion H; subst. now apply (Hf x).
Qed.

Lemma lexParameters_wrapped (txt : string) (e : Error) :
  js.startsWith txt (str START_PARAMETER_SET)
  && js.endsWith txt (str END_PARAMETER_SET) = true ->
  lexParameters txt = Err e -> e = TypeError.
Proof.
  intros Hw. unfold lexParameters.
  destruct (String.eqb txt ""); [discriminate |]. rewrite Hw.
  apply (mapM_error lexFormula (fun e => e = TypeError)).
  apply lexFormula_error.
Qed.

Lemma lexCaller_error (token : TokenKind) (txt : string) (e : Error) :
  lexCaller token txt = Err e -> lexer_error e.
Proof.
  unfold lexCaller, lexer_error.
  destruct (LEGAL_STOCK_NAME (js.trim txt)) as [name |];
    [| intros H; inversion H; eauto].
  set (rest := js.slice_from (String.length name) (js.trim txt)).
  destruct (String.eqb rest "") eqn:Er; cbn [negb andb].
  - apply String.eqb_eq in Er. rewrite Er. cbn [lexParameters bind].
    discriminate.
  - destruct (js.startsWith rest (str START_PARAMETER_SET)
              && js.endsWith rest (str END_PARAMETER_SET)) eqn:Ew; cbn [negb].
    + destruct (lexParameters rest) as [params |] eqn:Ep; cbn [bind];
        [discriminate |].
      intros H. inversion H; subst. left.
      now apply lexParameters_wrapped with rest.
    + intros H. inversion H. eauto.
Qed.

Lemma lexStock_error (txt : string) (e : Error) :
  lexStock txt = Err e -> lexer_error e.
Proof.
  unfold lexStock.
  destruct (js.startsWith (js.trim txt) (str START_INFINITE_STOCK)
            && js.endsWith (js.trim txt) (str END_INFINITE_STOCK));
    [discriminate | apply lexCaller_error].
Qed.

Lemma rev_string_app (s t acc : string) :
  js.rev_string (s ++ t) acc = js.rev_string t (js.rev_string s acc).
Proof.
  revert acc. induction s as [| c s IH]; intros acc; [reflexivity |].
  simpl. apply IH.
Qed.

Lemma prefix_empty (s : string) : String.prefix "" s = true.
Proof. destruct s; reflexivity. Qed.

Lemma wrapped_in_parentheses (txt : string) :
  js.startsWith ("(" ++ txt ++ ")") (str START_PARAMETER_SET)
  && js.endsWith ("(" ++ txt ++ ")") (str END_PARAMETER_SET) = true.
Proof.
  unfold js.startsWith, js.endsWith.
  change (js.rev_string ("(" ++ txt ++ ")") "")
    with (js.rev_string (txt ++ ")") "(").
  rewrite rev_string_app.
  change (String.prefix "" (txt ++ ")")
          && String.prefix "" (js.rev_string txt "(") = true).
  now rewrite !prefix_empty.
Qed.

Lemma lexFlow_error (txt : string) (e : Error) :
  lexFlow txt = Err e -> lexer_error e.
Proof.
  unfold lexFlow.
  assert (forall t,
             (params <- lexParameters ("(" ++ t ++ ")") ;;
              Ok (Caller TOKEN_FLOW "" params)) = Err e -> lexer_error e) as Hp.
  { intros t. destruct (lexParameters ("(" ++ t ++ ")")) as [params |] eqn:Ep;
      cbn [bind]; [discriminate |].
    intros H. inversion H; subst. left.
    apply lexParameters_wrapped with ("(" ++ t ++ ")")%string; [| exact Ep].
    apply wrapped_in_parentheses. }
  destruct (LEGAL_STOCK_NAME (js.trim txt)) as [name |]; [| apply Hp].
  destruct (js.startsWith _ _ && js.endsWith _ _);
    [apply lexCaller_error | apply Hp].
Qed.

(** ** The scanner of [lex] *)

Definition parsing_mode (k : TokenKind) : Prop :=
  k = TOKEN_STOCK \/ k = TOKEN_FLOW \/ k = TOKEN_COMMENT.

Definition numbered (n : nat) (t : LineToken) : Prop :=
  1 <= lineNumber t <= n /\ lineTokens t <> [].

Definition line_lt (a b : LineToken) : Prop := lineNumber a < lineNumber b.

Record lex_inv (s : LexState) : Prop := {
  inv_mode : parsing_mode (ls_parsing s);
  inv_lines : Forall (numbered (ls_lineNum s)) (ls_tokens s);
  inv_sorted : StronglySorted line_lt (ls_tokens s)
}.

Lemma StronglySorted_snoc {A : Type} (R : A -> A -> Prop) (l : list A) (x : A) :
  StronglySorted R l -> Forall (fun a => R a x) l ->
  StronglySorted R (l ++ [x]).
Proof.
  induction 1 as [| a l Hs IH Ha]; intros Hx; simpl.
  - repeat constructor.
  - inversion Hx; subst. constructor; [now apply IH |].
    apply Forall_app. split; [exact Ha | now repeat constructor].
Qed.

Lemma with_line_inv (s : LexState) (line : list Token) (charBuff : string)
    (parsing : TokenKind) :
  lex_inv s -> parsing_mode parsing ->
  lex_inv (with_line s line charBuff parsing).
Proof. intros [Hm Hl Hs] Hp. split; assumption. Qed.

Lemma lex_tail_inv (c : ascii) (s : LexState) :
  lex_inv s ->
  (Ascii.eqb c NEWLINE = true -> is_blank (ls_charBuff s) = true) ->
  exists s', lex_tail c s = Ok s' /\ lex_inv s'.
Proof.
  intros [Hm Hl Hs] Hb. unfold lex_tail.
  destruct (Ascii.eqb c NEWLINE).
  - rewrite (Hb eq_refl). cbn [negb]. eexists. split; [reflexivity |].
    assert (Forall (numbered (S (ls_lineNum s))) (ls_tokens s)) as Hl'.
    { eapply Forall_impl; [| exact Hl]. unfold numbered. intros t [H1 H2].
      split; [lia | exact H2]. }
    split; cbn [ls_parsing ls_tokens ls_lineNum].
    + now left.
    + destruct (ls_line s) as [| t line] eqn:El; [exact Hl' |].
      apply Forall_app. split; [exact Hl' |].
      constructor; [| constructor]. unfold numbered.
      cbn [lineNumber lineTokens]. split; [lia | discriminate].
    + destruct (ls_line s) as [| t line] eqn:El; [exact Hs |].
      apply StronglySorted_snoc; [exact Hs |].
      eapply Forall_impl; [| exact Hl]. unfold numbered, line_lt.
      cbn [lineNumber]. intros a [H1 _]. lia.
  - destruct ((Ascii.eqb c WHITESPACE || Ascii.eqb c FLOW_DIRECTION)
              && negb (TokenKind_eqb (ls_parsing s) TOKEN_COMMENT)).
    + exists s. split; [reflexivity | now split].
    + eexists. split; [reflexivity |]. now split.
Qed.

Lemma push_lexed_error (lexX : string -> res Token) (line : list Token)
    (charBuff : string) (e : Error) :
  (forall txt e', lexX txt = Err e' -> lexer_error e') ->
  push_lexed lexX line charBuff = Err e -> lexer_error e.
Proof.
  intros Hx. unfold push_lexed.
  destruct (is_blank charBuff); [discriminate |].
  destruct (lexX charBuff) as [t |] eqn:E; cbn [bind]; [discriminate |].
  intros H. inversion H; subst. now apply (Hx charBuff).
Qed.

Lemma not_newline (c d : ascii) :
  Ascii.eqb c d = true -> Ascii.eqb d NEWLINE = false ->
  Ascii.eqb c NEWLINE = true -> is_blank "" = true.
Proof.
  intros H1 H2 H3. apply Ascii.eqb_eq in H1. subst d. congruence.
Qed.

Lemma lex_step_inv (c : ascii) (s : LexState) :
  lex_inv s ->
  match lex_step c s with
  | Ok s' => lex_inv s'
  | Err e => lexer_error e
  end.
Proof.
  intros Hinv. unfold lex_step.
  assert (forall s0, lex_inv s0 ->
            (Ascii.eqb c NEWLINE = true -> is_blank (ls_charBuff s0) = true) ->
            match lex_tail c s0 with
            | Ok s' => lex_inv s'
            | Err e => lexer_error e
            end) as Htail.
  { intros s0 H0 Hb. destruct (lex_tail_inv c s0 H0 Hb) as (s' & -> & H').
    exact H'. }
  assert (forall lexX line0 parsing0,
            (forall txt e', lexX txt = Err e' -> lexer_error e') ->
            parsing_mode parsing0 ->
            match (line <- push_lexed lexX line0 (ls_charBuff s) ;;
                   lex_tail c (with_line s line (str WHITESPACE) parsing0)) with
            | Ok s' => lex_inv s'
            | Err e => lexer_error e
            end) as Hpush.
  { intros lexX line0 parsing0 Hx Hp.
    destruct (push_lexed lexX line0 (ls_charBuff s)) as [line |] eqn:E;
      cbn [bind]; [| now apply push_lexed_error in E].
    apply Htail; [now apply with_line_inv | reflexivity]. }
  assert (forall lexX line0 parsing0,
            (forall txt e', lexX txt = Err e' -> lexer_error e') ->
            parsing_mode parsing0 ->
            match (line <- push_lexed lexX line0 (ls_charBuff s) ;;
                   Ok (with_line s line (str WHITESPACE) parsing0)) with
            | Ok s' => lex_inv s'
            | Err e => lexer_error e
            end) as Hpush'.
  { intros lexX line0 parsing0 Hx Hp.
    destruct (push_lexed lexX line0 (ls_charBuff s)) as [line |] eqn:E;
      cbn [bind]; [| now apply push_lexed_error in E].
    now apply with_line_inv. }
  assert (forall d parsing0,
            parsing_mode parsing0 ->
            match (t <- lexStock (ls_charBuff s) ;;
                   Ok (with_line s (ls_line s ++ [t; Simple d (str c)])
                         (str WHITESPACE) parsing0)) with
            | Ok s' => lex_inv s'
            | Err e => lexer_error e
            end) as Hstock.
  { intros d parsing0 Hp.
    destruct (lexStock (ls_charBuff s)) as [t |] eqn:E; cbn [bind];
      [| now apply lexStock_error in E].
    now apply with_line_inv. }
  destruct (Ascii.eqb c COMMENT && Nat.eqb (List.length (ls_line s)) 0
            && is_blank (ls_charBuff s)) eqn:E1.
  { apply Htail; [apply with_line_inv; [exact Hinv | right; now right] |].
    apply andb_true_iff in E1. destruct E1 as [E1 E1'].
    apply andb_true_iff in E1. destruct E1 as [E1 _].
    apply Ascii.eqb_eq in E1. subst c. discriminate. }
  destruct (TokenKind_eqb (ls_parsing s) TOKEN_COMMENT) eqn:E2.
  { destruct (Ascii.eqb c NEWLINE) eqn:En.
    - apply Htail; [| reflexivity].
      apply with_line_inv; [exact Hinv | apply (inv_mode _ Hinv)].
    - apply Htail; [exact Hinv | discriminate]. }
  destruct (TokenKind_eqb (ls_parsing s) TOKEN_STOCK) eqn:E3.
  { destruct (Ascii.eqb c COMMENT);
      [apply (Hpush' lexStock); [apply lexStock_error | right; now right] |].
    destruct (Ascii.eqb c FLOW_DIRECTION); [apply Hstock; now left |].
    destruct (Ascii.eqb c FLOW_DELIMITER); [apply Hstock; right; now left |].
    destruct (Ascii.eqb c NEWLINE) eqn:En.
    - apply (Hpush lexStock); [apply lexStock_error | apply (inv_mode _ Hinv)].
    - apply Htail; [exact Hinv | discriminate]. }
  destruct (TokenKind_eqb (ls_parsing s) TOKEN_FLOW) eqn:E4.
  { destruct (Ascii.eqb c COMMENT);
      [apply (Hpush' lexFlow); [apply lexFlow_error | right; now right] |].
    destruct (Ascii.eqb c NEWLINE) eqn:En.
    - apply (Hpush lexFlow); [apply lexFlow_error | apply (inv_mode _ Hinv)].
    - apply Htail; [exact Hinv | discriminate]. }
  destruct (inv_mode _ Hinv) as [H | [H | H]]; rewrite H in *; discriminate.
Qed.

Lemma lex_loop_inv (cs : string) :
  forall s : LexState,
    lex_inv s ->
    match lex_loop cs s with
    | Ok s' => lex_inv s'
    | Err e => lexer_error e
    end.
Proof.
  induction cs as [| c cs IH]; intros s Hinv; [exact Hinv |].
  cbn [lex_loop]. pose proof (lex_step_inv c s Hinv) as Hs.
  destruct (lex_step c s) as [s1 |]; cbn [bind]; [now apply IH | exact Hs].
Qed.

(** X7: the lines that [lex] returns are numbered from 1 in strictly
    increasing order and none of them is empty; when [lex] fails, the
    error is an [IllegalStockName] or the [TypeError] of an unmatched
    closing parenthesis: it never raises [InvalidParameters] nor the
    error "unused char_buff". *)
Theorem lex_lines_and_errors (txt : string) :
  match lex txt with
  | Ok lines =>
      StronglySorted (fun a b => lineNumber a < lineNumber b) lines
      /\ Forall (fun t => 1 <= lineNumber t /\ lineTokens t <> []) lines
  | Err e => e = TypeError \/ exists s, e = IllegalStockName s
  end.
Proof.
  unfold lex.
  match goal with |- context [lex_loop ?cs ?s] =>
    pose proof (lex_loop_inv cs s) as H; destruct (lex_loop cs s) as [s' |]
  end; cbn [bind].
  - destruct H as [_ Hl Hs].
    + split; [now left | constructor | constructor].
    + split; [exact Hs |].
      eapply Forall_impl; [| exact Hl]. unfold numbered. tauto.
  - apply H. split; [now left | constructor | constructor].
Qed.

(** ** The errors of [parse] *)



















(** ** Numbers *)

Open Scope float_scope.

(** A number that is not below zero; NaN is one. *)
Definition not_negative (x : js.number) : Prop := (x <? 0) = false.

Lemma Prim2SF_zero : Prim2SF 0 = S754_zero false.
Proof. reflexivity. Qed.

Lemma Prim2SF_infinity : Prim2SF infinity = S754_infinity false.
Proof. reflexivity. Qed.

Lemma SFcompare_refl (x : spec_float) :
  SFcompare x x = None \/ SFcompare x x = Some Eq.
Proof.
  destruct x as [s | s | | s m e]; simpl; auto.
  - destruct s; auto.
  - change (IntDef.Z.compare e e) with (Z.compare e e).
    change (PosDef.Pos.compare_cont Eq m m) with (Pos.compare_cont Eq m m).
    rewrite Z.compare_refl, Pos.compare_cont_refl. destruct s; auto.
Qed.

Lemma SFltb_irrefl (x : spec_float) : SFltb x x = false.
Proof.
  unfold SFltb. destruct (SFcompare_refl x) as [-> | ->]; reflexivity.
Qed.

Lemma compare_cont_swap (m m' : positive) :
  Pos.compare_cont Eq m' m = CompOpp (Pos.compare_cont Eq m m').
Proof. apply (Pos.compare_antisym m m'). Qed.

Lemma SFcompare_Lt_swap (x y : spec_float) :
  SFcompare x y = Some Lt -> SFcompare y x = Some Gt.
Proof.
  destruct x as [s | s | | s m e], y as [s' | s' | | s' m' e'];
    cbn [SFcompare];
    try discriminate;
    try (destruct s; discriminate || reflexivity);
    try (destruct s'; discriminate || reflexivity);
    try (destruct s, s'; discriminate || reflexivity).
  change (PosDef.Pos.compare_cont Eq m' m) with (Pos.compare_cont Eq m' m).
  change (PosDef.Pos.compare_cont Eq m m') with (Pos.compare_cont Eq m m').
  change (IntDef.Z.compare e' e) with (Z.compare e' e).
  change (IntDef.Z.compare e e') with (Z.compare e e').
  rewrite (Z.compare_antisym e e'), (compare_cont_swap m m').
  destruct s, s'; try discriminate; try reflexivity;
    destruct (e ?= e')%Z; cbn [CompOpp]; try discriminate; try reflexivity;
      destruct (Pos.compare_cont Eq m m'); cbn [CompOpp];
        try discriminate; reflexivity.
Qed.

Lemma ltb_irrefl (x : js.number) : (x <? x) = false.
Proof. rewrite ltb_spec. apply SFltb_irrefl. Qed.

Lemma ltb_asym (x y : js.number) : (x <? y) = true -> (y <? x) = false.
Proof.
  rewrite !ltb_spec. unfold SFltb.
  destruct (SFcompare (Prim2SF x) (Prim2SF y)) as [[| |] |] eqn:E;
    try discriminate.
  intros _. now rewrite (SFcompare_Lt_swap _ _ E).
Qed.

Lemma is_nan_spec (x : js.number) :
  is_nan x = true <-> Prim2SF x = S754_nan.
Proof.
  unfold is_nan. rewrite eqb_spec. unfold SFeqb.
  destruct (SFcompare_refl (Prim2SF x)) as [E | E]; rewrite E; cbn [negb].
  - split; [| reflexivity]. intros _.
    destruct (Prim2SF x) as [s | s | | s m e]; try discriminate E.
    reflexivity.
  - split; [discriminate |]. intros H. rewrite H in E. discriminate E.
Qed.

Lemma nan_not_negative (x : js.number) : is_nan x = true -> not_negative x.
Proof.
  intros H. apply is_nan_spec in H. unfold not_negative.
  now rewrite ltb_spec, H.
Qed.

Lemma binary_round_aux_sign (mx ex : Z) (lx : location) :
  SFltb (binary_round_aux prec emax false mx ex lx) (S754_zero false) = false.
Proof.
  unfold binary_round_aux.
  destruct (shr_fexp prec emax mx ex lx) as [mrs' e'].
  destruct (shr_fexp prec emax _ e' loc_Exact) as [mrs'' e''].
  destruct (shr_m mrs''); [reflexivity | | reflexivity].
  destruct (Z.leb e'' (emax - prec)); reflexivity.
Qed.

Lemma binary_normalize_sign (m e : Z) :
  (0 <= m)%Z ->
  SFltb (binary_normalize prec emax m e false) (S754_zero false) = false.
Proof.
  intros Hm. destruct m as [| p | p]; [reflexivity | | lia].
  unfold binary_normalize, binary_round.
  destruct (shl_align _ _ _) as [mz ez].
  apply binary_round_aux_sign.
Qed.

Lemma sub_self_not_negative (x : js.number) : not_negative (x - x).
Proof.
  unfold not_negative. rewrite ltb_spec, sub_spec, Prim2SF_zero.
  destruct (Prim2SF x) as [s | s | | s m e].
  - destruct s; reflexivity.
  - destruct s; reflexivity.
  - reflexivity.
  - unfold SF64sub, SFsub. rewrite Z.sub_diag. reflexivity.
Qed.

Lemma add_not_negative (x y : js.number) :
  not_negative x -> not_negative y -> not_negative (x + y).
Proof.
  unfold not_negative. rewrite !ltb_spec, add_spec, Prim2SF_zero.
  destruct (Prim2SF x) as [s | s | | s m e],
           (Prim2SF y) as [s' | s' | | s' m' e'];
    try (destruct s); try (destruct s'); try reflexivity; try discriminate.
  intros _ _. unfold SF64add, SFadd, cond_Zopp.
  apply binary_normalize_sign. lia.
Qed.

Lemma sub_zero_not_negative (x z : js.number) :
  not_negative x -> (z =? 0) = true -> not_negative (x - z).
Proof.
  unfold not_negative. rewrite !ltb_spec, eqb_spec, sub_spec, Prim2SF_zero.
  destruct (Prim2SF x) as [s | s | | s m e],
           (Prim2SF z) as [s' | s' | | s' m' e'];
    try (destruct s); try (destruct s'); try reflexivity; discriminate.
Qed.

Lemma sub_nan_not_negative (x y : js.number) :
  is_nan y = true -> not_negative (x - y).
Proof.
  intros H. apply is_nan_spec in H. unfold not_negative.
  rewrite ltb_spec, sub_spec, H.
  destruct (Prim2SF x) as [s | s | | s m e]; reflexivity.
Qed.

Lemma positive_not_negative (x : js.number) : (0 <? x) = true -> not_negative x.
Proof. apply ltb_asym. Qed.

Lemma leb_zero_not_negative (x : js.number) :
  (0 <=? x) = true -> not_negative x.
Proof.
  unfold not_negative. rewrite leb_spec, ltb_spec, Prim2SF_zero.
  destruct (Prim2SF x) as [s | s | | s m e]; try (destruct s);
    try reflexivity; discriminate.
Qed.

Lemma infinity_not_below (x : js.number) : (infinity <? x) = false.
Proof.
  rewrite ltb_spec, Prim2SF_infinity.
  destruct (Prim2SF x) as [s | s | | s m e]; try (destruct s); reflexivity.
Qed.

Lemma Math_min_infinity (x : js.number) :
  is_nan x = false -> js.Math_min infinity x = x.
Proof.
  intros H. unfold js.Math_min. rewrite H, infinity_not_below.
  change (is_nan infinity) with false. cbn [orb].
  change (get_sign infinity) with false.
  destruct (x <? infinity); reflexivity.
Qed.

Lemma Math_min_nan (cap x : js.number) :
  is_nan cap = true -> is_nan (js.Math_min cap x) = true.
Proof. intros H. unfold js.Math_min. rewrite H. reflexivity. Qed.

Lemma Math_max_zero_cases (x : js.number) :
  is_nan (js.Math_max 0 x) = true
  \/ (js.Math_max 0 x = x /\ (0 <? x) = true)
  \/ js.Math_max 0 x = 0.
Proof.
  unfold js.Math_max. change (is_nan 0) with false. cbn [orb].
  destruct (is_nan x); [now left |].
  destruct (0 <? x); [right; left; now split |].
  change (get_sign 0) with false.
  destruct (x <? 0); right; right; reflexivity.
Qed.

Lemma ltb_true_not_nan (x y : js.number) : (x <? y) = true -> is_nan y = false.
Proof.
  intros H. destruct (is_nan y) eqn:E; [| reflexivity].
  apply is_nan_spec in E. rewrite ltb_spec, E in H.
  destruct (Prim2SF x) as [s | s | | s m e]; discriminate H.
Qed.

Lemma ltb_nan_r (x y : js.number) : is_nan y = true -> (x <? y) = false.
Proof.
  intros H. apply is_nan_spec in H. rewrite ltb_spec, H.
  destruct (Prim2SF x) as [s | s | | s m e]; reflexivity.
Qed.

Lemma ltb_nan_l (x y : js.number) : is_nan x = true -> (x <? y) = false.
Proof.
  intros H. apply is_nan_spec in H. now rewrite ltb_spec, H.
Qed.

Lemma Math_min_nan_r (cap x : js.number) :
  is_nan x = true -> is_nan (js.Math_min cap x) = true.
Proof.
  intros H. unfold js.Math_min. rewrite H, orb_true_r. reflexivity.
Qed.

Lemma Math_min_not_above (cap x : js.number) :
  (cap <? js.Math_min cap x) = false.
Proof.
  unfold js.Math_min.
  destruct (is_nan cap || is_nan x); [now apply ltb_nan_r |].
  destruct (cap <? x) eqn:E1; [apply ltb_irrefl |].
  destruct (x <? cap) eqn:E2; [now apply ltb_asym |].
  destruct (get_sign cap); [apply ltb_irrefl | exact E1].
Qed.

Lemma zero_not_negative : not_negative 0.
Proof. reflexivity. Qed.

(** The amount that [Rate.calculate] moves, from the source value, the
    evaluated rate and the capacity. *)
Definition Rate_change (src evaluated capacity : js.number) : js.number :=
  if 0 <? src then
    js.Math_min capacity
      (js.Math_max 0 (if 0 <=? src - evaluated then evaluated else src))
  else 0.

Lemma Rate_calculate_change (r : RateBase.t) (state : StateMap)
    (src dest capacity evaluated : js.number) :
  Formula.compute (RateBase.formula r) state = Ok evaluated ->
  RateBase.Rate_calculate r state src dest capacity
  = Ok (Rate_change src evaluated capacity, Rate_change src evaluated capacity).
Proof.
  intros H. unfold RateBase.Rate_calculate, Rate_change. rewrite H.
  cbn [bind]. destruct (0 <? src); reflexivity.
Qed.

Lemma Rate_change_not_negative (src evaluated capacity : js.number) :
  not_negative src ->
  capacity = infinity \/ is_nan capacity = true ->
  not_negative (src - Rate_change src evaluated capacity)
  /\ not_negative (Rate_change src evaluated capacity).
Proof.
  intros Hsrc Hcap. unfold Rate_change.
  destruct (0 <? src) eqn:Hpos.
  2:{ split; [now apply sub_zero_not_negative | exact zero_not_negative]. }
  destruct Hcap as [-> | Hnan].
  2:{ pose proof (Math_min_nan capacity
                    (js.Math_max 0 (if 0 <=? src - evaluated
                                    then evaluated else src)) Hnan) as Hn.
      split; [now apply sub_nan_not_negative | now apply nan_not_negative]. }
  set (c := if 0 <=? src - evaluated then evaluated else src).
  destruct (Math_max_zero_cases c) as [Hn | [[Hm Hp] | Hz]].
  - pose proof (Math_min_nan_r infinity _ Hn) as Hn'.
    split; [now apply sub_nan_not_negative | now apply nan_not_negative].
  - rewrite Hm, Math_min_infinity by now apply ltb_true_not_nan with 0.
    split; [| now apply positive_not_negative].
    unfold c. destruct (0 <=? src - evaluated) eqn:Hle.
    + now apply leb_zero_not_negative.
    + apply sub_self_not_negative.
  - rewrite Hz, Math_min_infinity by reflexivity.
    split; [now apply sub_zero_not_negative | exact zero_not_negative].
Qed.

Lemma unbounded_capacity (destState : js.number) :
  let adjusted := if negb (destState =? js.POSITIVE_INFINITY)
                  then infinity - destState else infinity in
  adjusted = infinity \/ is_nan adjusted = true.
Proof.
  cbn zeta. destruct (negb (destState =? js.POSITIVE_INFINITY)) eqn:E;
    [| now left].
  apply negb_true_iff in E. unfold js.POSITIVE_INFINITY in E.
  rewrite eqb_spec, Prim2SF_infinity in E.
  destruct (Prim2SF destState) as [s | s | | s m e] eqn:Ed.
  - left. apply Prim2SF_inj. rewrite sub_spec, Ed. reflexivity.
  - destruct s; [| discriminate E].
    left. apply Prim2SF_inj. rewrite sub_spec, Ed. reflexivity.
  - right. apply is_nan_spec. rewrite sub_spec, Ed. reflexivity.
  - left. apply Prim2SF_inj. rewrite sub_spec, Ed. reflexivity.
Qed.

(** ** State.advance with Rate flows *)

Definition state_not_negative (state : StateMap) : Prop :=
  forall k, not_negative (lookup state k).

Definition rate_only (m : Model.t) : Prop :=
  Forall (fun f => RateBase.class (Flow.rate f) = Rate) (Model.flows m).

(** The destination of every flow has a maximum that evaluates to
    [+Infinity], as the default maximum does. *)
Definition unbounded (m : Model.t) : Prop :=
  forall f dest,
    In f (Model.flows m) ->
    nth_error (Model.stocks m) (Flow.destination f) = Some dest ->
    forall state, Formula.compute (Stock.maximum dest) state = Ok infinity.

Lemma deref_nth (stocks : list Stock.t) (ref : nat) (s : Stock.t) :
  Flow.deref stocks ref = Ok s -> nth_error stocks ref = Some s.
Proof.
  unfold Flow.deref. destruct (nth_error stocks ref); [| discriminate].
  intros H. now inversion H.
Qed.

Lemma process_flow_not_negative (m : Model.t) (f : Flow.t)
    (state state' : StateMap) (deferred deferred' : list (string * js.number)) :
  unbounded m -> In f (Model.flows m) ->
  RateBase.class (Flow.rate f) = Rate ->
  state_not_negative state ->
  Forall (fun p => not_negative (snd p)) deferred ->
  State.process_flow m f (state, deferred) = Ok (state', deferred') ->
  state_not_negative state'
  /\ Forall (fun p => not_negative (snd p)) deferred'.
Proof.
  intros Hu Hin Hc Hst Hd. unfold State.process_flow, Flow.change.
  destruct (Flow.deref (Model.stocks m) (Flow.source f)) as [src |];
    cbn [bind]; [| discriminate].
  destruct (Flow.deref (Model.stocks m) (Flow.destination f)) as [dst |] eqn:Ed;
    cbn [bind]; [| discriminate].
  rewrite (Hu f dst Hin (deref_nth _ _ _ Ed) state). cbn [bind].
  unfold RateBase.calculate. rewrite Hc.
  destruct (Formula.compute (RateBase.formula (Flow.rate f)) state)
    as [ev |] eqn:Ev.
  2:{ unfold RateBase.Rate_calculate. rewrite Ev. discriminate. }
  rewrite (Rate_calculate_change _ _ _ _ _ _ Ev). cbn [bind].
  intros H. inversion H; subst state' deferred'. clear H.
  match goal with |- context [Rate_change ?s ?e ?c] =>
    destruct (Rate_change_not_negative s e c) as [H1 H2]
  end.
  - apply Hst.
  - apply unbounded_capacity.
  - split.
    + intros k. rewrite lookup_set.
      destruct (String.eqb (Stock.name src) k); [exact H1 | apply Hst].
    + apply Forall_app. split; [exact Hd |]. now repeat constructor.
Qed.

Lemma process_flows_not_negative (m : Model.t) (fs : list Flow.t) :
  unbounded m -> incl fs (Model.flows m) ->
  Forall (fun f => RateBase.class (Flow.rate f) = Rate) fs ->
  forall (state state' : StateMap) (deferred deferred' : list (string * js.number)),
    state_not_negative state ->
    Forall (fun p => not_negative (snd p)) deferred ->
    State.process_flows m fs (state, deferred) = Ok (state', deferred') ->
    state_not_negative state'
    /\ Forall (fun p => not_negative (snd p)) deferred'.
Proof.
  intros Hu. induction fs as [| f rest IH];
    intros Hincl Hr state state' deferred deferred' Hst Hd H.
  - inversion H; subst. auto.
  - cbn [State.process_flows] in H.
    destruct (State.process_flow m f (state, deferred)) as [[st1 d1] |] eqn:E;
      cbn [bind] in H; [| discriminate H].
    inversion Hr as [| ? ? Hf Hrest]; subst.
    destruct (process_flow_not_negative m f state st1 deferred d1)
      as [Hst1 Hd1]; auto.
    { apply Hincl. now left. }
    apply (IH (fun x Hx => Hincl x (or_intror Hx)) Hrest st1 state' d1 deferred');
      assumption.
Qed.

Lemma apply_deferred_not_negative (deferred : list (string * js.number)) :
  forall state : StateMap,
    state_not_negative state ->
    Forall (fun p => not_negative (snd p)) deferred ->
    state_not_negative (State.apply_deferred state deferred).
Proof.
  unfold State.apply_deferred.
  induction deferred as [| [dest change] rest IH]; intros state Hst Hd;
    [exact Hst |].
  inversion Hd as [| ? ? Hc Hrest]; subst. cbn [fold_left snd] in *.
  apply IH; [| assumption].
  intros k. rewrite lookup_set.
  destruct (String.eqb dest k); [| apply Hst].
  apply add_not_negative; [apply Hst | assumption].
Qed.

(** X9: in a model whose flows all have a [Rate] and whose destinations
    have no finite maximum, a round keeps the stocks from going below
    zero: if no value of the state is negative before [advance], none is
    negative after it.  ([Rate.calculate] takes from the source no more
    than it holds.) *)
Theorem Rate_flows_keep_stocks_not_negative (m : Model.t)
    (state state' : StateMap) :
  rate_only m -> unbounded m ->
  state_not_negative state ->
  State.advance m state = Ok state' ->
  state_not_negative state'.
Proof.
  intros Hr Hu Hst. unfold State.advance.
  destruct (State.process_flows m (rev (Model.flows m)) (state, []))
    as [[st1 d1] |] eqn:E; cbn [bind]; [| discriminate].
  intros H. inversion H; subst state'.
  destruct (process_flows_not_negative m (rev (Model.flows m)) Hu) with
    (state := state) (state' := st1) (deferred := @nil (string * js.number))
    (deferred' := d1) as [H1 H2]; auto.
  - intros x Hx. now apply in_rev.
  - apply Forall_rev. exact Hr.
  - now apply apply_deferred_not_negative.
Qed.

Lemma two_stock_model_unbounded : unbounded two_stock_model.
Proof.
  intros f dest [<- | []] Hd state. cbn in Hd. inversion Hd. reflexivity.
Qed.

Lemma two_stock_state_not_negative :
  state_not_negative [("a", 3); ("b", 0)]%string.
Proof.
  intros k. unfold lookup, js.get.
  destruct (String.eqb "a" k); [reflexivity |].
  destruct (String.eqb "b" k); reflexivity.
Qed.

Lemma Rate_flows_keep_stocks_not_negative_witness :
  state_not_negative [("a", 0); ("b", 3)]%string.
Proof.
  apply (Rate_flows_keep_stocks_not_negative two_stock_model
           [("a", 3); ("b", 0)]%string).
  - repeat constructor.
  - exact two_stock_model_unbounded.
  - exact two_stock_state_not_negative.
  - vm_compute. reflexivity.
Defined.

(** X10: what a flow with a [Rate] or a [Leak] removes from its source
    is what it adds to its destination, and the amount is never above
    the capacity left in the destination: the maximum formula evaluated
    on the state, less the value of the destination unless that value
    is [+Infinity].  The one exception is a [Rate] on a source that is
    not positive, which moves 0 whatever the capacity. *)
Theorem Rate_and_Leak_stay_within_capacity (stocks : list Stock.t)
    (f : Flow.t) (state : StateMap) (sourceState destState rem add : js.number) :
  RateBase.class (Flow.rate f) <> Conversion ->
  Flow.change stocks f state sourceState destState = Ok (rem, add) ->
  rem = add
  /\ exists dest capacity,
       nth_error stocks (Flow.destination f) = Some dest
       /\ Formula.compute (Stock.maximum dest) state = Ok capacity
       /\ (((if negb (destState =? js.POSITIVE_INFINITY)
             then capacity - destState else capacity) <? add) = false
           \/ (RateBase.class (Flow.rate f) = Rate
               /\ (0 <? sourceState) = false /\ add = 0)).
Proof.
  intros Hc. unfold Flow.change.
  destruct (Flow.deref stocks (Flow.destination f)) as [dest |] eqn:Ed;
    cbn [bind]; [| discriminate].
  destruct (Formula.compute (Stock.maximum dest) state) as [capacity |] eqn:Em;
    cbn [bind]; [| discriminate].
  set (adjusted := if negb (destState =? js.POSITIVE_INFINITY)
                   then capacity - destState else capacity).
  unfold RateBase.calculate, RateBase.Rate_calculate, RateBase.Leak_calculate.
  destruct (Formula.compute (RateBase.formula (Flow.rate f)) state) as [ev |];
    [| destruct (RateBase.class (Flow.rate f)); try discriminate; now elim Hc].
  cbn [bind].
  destruct (RateBase.class (Flow.rate f)) eqn:Eclass; [| now elim Hc |].
  - destruct (0 <? sourceState) eqn:Hpos; intros H; inversion H; subst.
    + split; [reflexivity |]. exists dest, capacity.
      split; [now apply deref_nth |]. split; [exact Em |].
      left. apply Math_min_not_above.
    + split; [reflexivity |]. exists dest, capacity.
      split; [now apply deref_nth |]. split; [exact Em |]. right. auto.
  - intros H. inversion H; subst. split; [reflexivity |].
    exists dest, capacity.
    split; [now apply deref_nth |]. split; [exact Em |]. left.
    unfold js.isNaN. destruct (is_nan adjusted) eqn:En; cbn [negb].
    + now apply ltb_nan_l.
    + apply Math_min_not_above.
Qed.

Lemma Rate_and_Leak_stay_within_capacity_witness :
  5 = 5
  /\ exists dest capacity,
       nth_error (Model.stocks two_stock_model) 1 = Some dest
       /\ Formula.compute (Stock.maximum dest) [("a", 10); ("b", 0)]%string
          = Ok capacity
       /\ (((if negb (0 =? js.POSITIVE_INFINITY)
             then capacity - 0 else capacity) <? 5) = false
           \/ (Rate = Rate /\ (0 <? 10) = false /\ 5 = 0)).
Proof.
  apply (Rate_and_Leak_stay_within_capacity (Model.stocks two_stock_model)
           {| Flow.source := 0; Flow.destination := 1;
              Flow.rate :=
                {| RateBase.class := Rate;
                   RateBase.formula :=
                     {| Formula.lexed := [SimpleToken TOKEN_WHOLE "5"];
                        Formula.default := 0 |} |} |}
           [("a", 10); ("b", 0)]%string 10 0 5 5).
  - discriminate.
  - vm_compute. reflexivity.
Defined.

(** ** The deferred additions of [advance] *)

(** The additions of [deferred] that go to the stock [k], applied in
    order to the value [v]. *)
Definition add_deferred (k : string) (deferred : list (string * js.number))
    (v : js.number) : js.number :=
  fold_left (fun acc p => if String.eqb (fst p) k then acc + snd p else acc)
    deferred v.

Lemma apply_deferred_lookup (deferred : list (string * js.number)) :
  forall (state : StateMap) (k : string),
    lookup (State.apply_deferred state deferred) k
    = add_deferred k deferred (lookup state k).
Proof.
  unfold State.apply_deferred, add_deferred.
  induction deferred as [| [dest change] rest IH]; intros state k;
    [reflexivity |].
  cbn [fold_left fst snd]. rewrite IH, lookup_set.
  destruct (String.eqb dest k) eqn:E; [| reflexivity].
  apply String.eqb_eq in E. now subst dest.
Qed.

(** The flow [f] takes from the stock named [k]. *)
Definition takes_from (m : Model.t) (k : string) (f : Flow.t) : Prop :=
  exists src,
    nth_error (Model.stocks m) (Flow.source f) = Some src /\ Stock.name src = k.

(** The flow [f] gives to the stock that the deferred entry [p] names. *)
Definition gives_to (m : Model.t) (f : Flow.t) (p : string * js.number) : Prop :=
  exists dest,
    nth_error (Model.stocks m) (Flow.destination f) = Some dest
    /\ fst p = Stock.name dest.

Lemma process_flows_deferred (m : Model.t) (fs : list Flow.t) :
  forall (state state' : StateMap) (deferred deferred' : list (string * js.number)),
    State.process_flows m fs (state, deferred) = Ok (state', deferred') ->
    (exists added,
        deferred' = deferred ++ added /\ Forall2 (gives_to m) fs added)
    /\ forall k,
         (forall f, In f fs -> ~ takes_from m k f) ->
         js.get state' k = js.get state k.
Proof.
  induction fs as [| f rest IH]; intros state state' deferred deferred' H.
  - inversion H; subst. split; [| reflexivity].
    exists []. now rewrite app_nil_r.
  - cbn [State.process_flows] in H.
    destruct (State.process_flow m f (state, deferred)) as [[st1 d1] |] eqn:E;
      cbn [bind] in H; [| discriminate H].
    destruct (IH _ _ _ _ H) as [(added & -> & Hadded) Hkeep].
    unfold State.process_flow in E.
    destruct (Flow.deref (Model.stocks m) (Flow.source f)) as [src |] eqn:Es;
      cbn [bind] in E; [| discriminate E].
    destruct (Flow.deref (Model.stocks m) (Flow.destination f)) as [dst |]
      eqn:Ed; cbn [bind] in E; [| discriminate E].
    destruct (Flow.change _ _ _ _ _) as [[rem add] |]; cbn [bind] in E;
      [| discriminate E].
    inversion E; subst st1 d1. split.
    + exists ((Stock.name dst, add) :: added). rewrite <- app_assoc.
      split; [reflexivity |]. constructor; [| exact Hadded].
      exists dst. split; [now apply deref_nth | reflexivity].
    + intros k Hk. rewrite Hkeep by (intros f' Hf'; apply Hk; now right).
      apply get_set_other. intros <-. apply (Hk f); [now left |].
      exists src. split; [now apply deref_nth | reflexivity].
Qed.

(** X11: [advance] commits the additions after all the flows.  While
    the flows are gone through, from the last to the first, each pushes
    one addition for its destination on the deferred list and a stock
    changes only if a flow takes from it; the value of a stock after
    the round is its value after these removals plus, in the order of
    the list, the additions deferred for it. *)
Theorem advance_defers_additions (m : Model.t) (state state' : StateMap) :
  State.advance m state = Ok state' ->
  exists (removed : StateMap) (deferred : list (string * js.number)),
    State.process_flows m (rev (Model.flows m)) (state, []) = Ok (removed, deferred)
    /\ Forall2 (gives_to m) (rev (Model.flows m)) deferred
    /\ (forall k,
          (forall f, In f (Model.flows m) -> ~ takes_from m k f) ->
          js.get removed k = js.get state k)
    /\ forall k, lookup state' k = add_deferred k deferred (lookup removed k).
Proof.
  unfold State.advance.
  destruct (State.process_flows m (rev (Model.flows m)) (state, []))
    as [[removed deferred] |] eqn:E; cbn [bind]; [| discriminate].
  intros H. inversion H; subst state'.
  exists removed, deferred. split; [reflexivity |].
  destruct (process_flows_deferred _ _ _ _ _ _ E) as [(added & -> & Ha) Hk].
  split; [exact Ha |]. split.
  - intros k Hn. apply Hk. intros f Hf. apply Hn. now apply in_rev.
  - intros k. apply apply_deferred_lookup.
Qed.

(** The model of two flows into one stock: "a(10) > c @ 5" and
    "b(10) > c @ 3". *)
Definition fan_in_model : Model.t :=
  Eval vm_compute in
    match parse.parse "a(10) > c @ 5
b(10) > c @ 3" with
    | Ok m => m
    | Err _ => Model.new ""
    end.

Lemma advance_defers_additions_witness :
  exists (removed : StateMap) (deferred : list (string * js.number)),
    State.process_flows fan_in_model (rev (Model.flows fan_in_model))
      ([("a", 10); ("c", 0); ("b", 10)]%string, []) = Ok (removed, deferred)
    /\ Forall2 (gives_to fan_in_model) (rev (Model.flows fan_in_model)) deferred
    /\ (forall k,
          (forall f, In f (Model.flows fan_in_model) ->
                     ~ takes_from fan_in_model k f) ->
          js.get removed k = js.get [("a", 10); ("c", 0); ("b", 10)]%string k)
    /\ forall k,
         lookup [("a", 5); ("c", 8); ("b", 7)]%string k
         = add_deferred k deferred (lookup removed k).
Proof.
  apply (advance_defers_additions fan_in_model
           [("a", 10); ("c", 0); ("b", 10)]%string
           [("a", 5); ("c", 8); ("b", 7)]%string).
  vm_compute. reflexivity.
Defined.

Close Scope float_scope.

(** ** Finding cycles (algos.ts) *)

(** [g[n]], with the empty array for a node that [g] does not have. *)
Definition edges_of (g : algos.Graph) (n : string) : list string :=
  match js.get g n with
  | Some es => es
  | None => []
  end.

(** The nodes of [g] that still have edges, counted. *)
Definition live (g : algos.Graph) : nat :=
  List.length (filter (fun entry => Nat.ltb 0 (List.length (snd entry))) g).

(** One execution of the body of the [if] in the loop of [findCycles]:
    [node] has no incoming edge left and has the outgoing edges
    [e :: es]; these are trimmed and [node] is appended to [deps].  For
    every occurrence of [n] among the edges, one occurrence of [node]
    leaves [inGraph[n]]. *)
Definition peels (node : string) (st st' : algos.LoopState) : Prop :=
  exists e es,
    js.get (algos.st_cycles st) node = Some (e :: es)
    /\ js.get (algos.st_inGraph st) node = Some []
    /\ algos.st_outGraph st' = algos.st_outGraph st
    /\ algos.st_cycles st' = js.set (algos.st_cycles st) node []
    /\ algos.st_deps st' = algos.st_deps st ++ [node]
    /\ algos.st_changed st' = true
    /\ js.keys (algos.st_inGraph st') = js.keys (algos.st_inGraph st)
    /\ forall n m,
         count_occ string_dec (edges_of (algos.st_inGraph st') n) m
         = if string_dec m node
           then count_occ string_dec (edges_of (algos.st_inGraph st) n) node
                - count_occ string_dec (e :: es) n
           else count_occ string_dec (edges_of (algos.st_inGraph st) n) m.


Lemma edges_of_set (g : algos.Graph) (k n : string) (v : list string) :
  edges_of (js.set g k v) n = if String.eqb k n then v else edges_of g n.
Proof.
  unfold edges_of. destruct (String.eqb k n) eqn:E.
  - apply String.eqb_eq in E. subst n. now rewrite get_set_same.
  - apply String.eqb_neq in E. now rewrite get_set_other.
Qed.

Lemma edges_of_get (g : algos.Graph) (n : string) (es : list string) :
  js.get g n = Some es -> edges_of g n = es.
Proof. unfold edges_of. now intros ->. Qed.

Lemma copy_graph_id (g : algos.Graph) : algos.copy_graph g = g.
Proof.
  unfold algos.copy_graph.
  induction g as [| [n es] g IH]; simpl; [reflexivity | now rewrite IH].
Qed.



Lemma count_remove_first (x m : string) (l : list string) :
  count_occ string_dec (js.remove_first x l) m
  = if string_dec m x
    then pred (count_occ string_dec l x)
    else count_occ string_dec l m.
Proof.
  induction l as [| y l IH]; simpl.
  - now destruct (string_dec m x).
  - destruct (String.eqb y x) eqn:E.
    + apply String.eqb_eq in E. subst y.
      destruct (string_dec x x) as [_ | Hn]; [| congruence].
      destruct (string_dec m x) as [-> | Hne]; [reflexivity |].
      destruct (string_dec x m); [congruence | reflexivity].
    + apply String.eqb_neq in E. simpl. rewrite IH.
      destruct (string_dec y x) as [-> | _]; [congruence |].
      destruct (string_dec m x) as [-> | Hne].
      * destruct (string_dec y x); [congruence | reflexivity].
      * reflexivity.
Qed.

Lemma trim_edges_error (node : string) (edges : list string)
    (g : algos.Graph) (e : Error) :
  algos.trim_edges node edges g = Err e -> e = TypeError.
Proof.
  revert g. induction edges as [| edge rest IH]; intros g; simpl;
    [discriminate |].
  destruct (js.get g edge); [apply IH | congruence].
Qed.

Lemma trim_edges_spec (node : string) (edges : list string)
    (g g' : algos.Graph) :
  algos.trim_edges node edges g = Ok g' ->
  js.keys g' = js.keys g
  /\ forall n m,
       count_occ string_dec (edges_of g' n) m
       = if string_dec m node
         then count_occ string_dec (edges_of g n) node
              - count_occ string_dec edges n
         else count_occ string_dec (edges_of g n) m.
Proof.
  revert g. induction edges as [| edge rest IH]; intros g; simpl.
  - intros H. inversion H; subst. split; [reflexivity |].
    intros n m. destruct (string_dec m node) as [-> | _]; [lia | reflexivity].
  - destruct (js.get g edge) as [ins |] eqn:Eg; [| discriminate].
    intros H. destruct (IH _ H) as [Hk Hc]. split.
    + rewrite Hk. apply keys_set_in. apply get_in_keys. eauto.
    + intros n m. rewrite Hc, !edges_of_set.
      destruct (string_dec edge n) as [-> | Hne].
      * rewrite String.eqb_refl, !count_remove_first.
        rewrite (edges_of_get _ _ _ Eg).
        destruct (string_dec node node) as [_ | Hn]; [| congruence].
        destruct (string_dec m node); [lia | reflexivity].
      * apply String.eqb_neq in Hne. rewrite Hne.
        destruct (string_dec m node); [lia | reflexivity].
Qed.

Lemma visit_error (node : string) (st : algos.LoopState) (e : Error) :
  algos.visit node st = Err e -> e = TypeError.
Proof.
  unfold algos.visit.
  destruct (js.get (algos.st_cycles st) node) as [edges |]; [| discriminate].
  destruct (js.get (algos.st_inGraph st) node) as [ins |]; [| congruence].
  destruct (_ && _); [| discriminate].
  destruct (algos.trim_edges _ _ _) eqn:Et; cbn [bind]; [discriminate |].
  intros H. inversion H; subst. now apply trim_edges_error in Et.
Qed.

Lemma visit_cases (node : string) (st st' : algos.LoopState) :
  algos.visit node st = Ok st' -> st' = st \/ peels node st st'.
Proof.
  unfold algos.visit.
  destruct (js.get (algos.st_cycles st) node) as [edges |] eqn:Ec;
    [| intros H; inversion H; now left].
  destruct (js.get (algos.st_inGraph st) node) as [ins |] eqn:Ei;
    [| discriminate].
  destruct ins as [| i ins]; cbn [List.length Nat.eqb andb];
    [| intros H; inversion H; now left].
  destruct edges as [| e es]; cbn [List.length Nat.ltb Nat.leb];
    [intros H; inversion H; now left |].
  destruct (algos.trim_edges _ _ _) as [g' |] eqn:Et; cbn [bind];
    [| discriminate].
  intros H. inversion H; subst st'. right.
  destruct (trim_edges_spec _ _ _ _ Et) as [Hk Hc].
  exists e, es. cbn. repeat (split; [solve [auto] |]). exact Hc.
Qed.


Lemma visit_all_error (nodes : list string) (st : algos.LoopState)
    (e : Error) :
  algos.visit_all nodes st = Err e -> e = TypeError.
Proof.
  revert st. induction nodes as [| node rest IH]; intros st; simpl;
    [discriminate |].
  destruct (algos.visit node st) eqn:Ev; cbn [bind]; [apply IH |].
  intros H. inversion H; subst. now apply visit_error in Ev.
Qed.

Lemma visit_all_invariant (Inv : algos.LoopState -> Prop) :
  (forall node st st', Inv st -> peels node st st' -> Inv st') ->
  forall nodes st st',
    Inv st -> algos.visit_all nodes st = Ok st' -> Inv st'.
Proof.
  intros Hp nodes. induction nodes as [| node rest IH]; intros st st' Hi; simpl.
  - intros H. inversion H. now subst.
  - destruct (algos.visit node st) as [st1 |] eqn:Ev; cbn [bind];
      [| discriminate].
    apply IH. destruct (visit_cases _ _ _ Ev) as [-> | Hpeel];
      [exact Hi | eauto].
Qed.

Lemma while_changed_invariant (Inv : algos.LoopState -> Prop) :
  (forall st, Inv st -> Inv (algos.with_changed st false)) ->
  (forall node st st', Inv st -> peels node st st' -> Inv st') ->
  forall fuel st st',
    Inv st -> algos.while_changed fuel st = Ok st' -> Inv st'.
Proof.
  intros Hc Hp fuel. induction fuel as [| fuel IH]; intros st st' Hi; simpl.
  - destruct (algos.st_changed st); [discriminate |].
    intros H. inversion H. now subst.
  - destruct (algos.st_changed st);
      [| intros H; inversion H; now subst].
    destruct (algos.visit_all _ _) as [st1 |] eqn:Ev; cbn [bind];
      [| discriminate].
    apply IH.
    eapply visit_all_invariant; [exact Hp | apply Hc; exact Hi | exact Ev].
Qed.




Lemma live_le (g : algos.Graph) : live g <= List.length g.
Proof. apply filter_length_le. Qed.

Lemma live_set (g : algos.Graph) (n e : string) (es : list string) :
  js.get g n = Some (e :: es) -> live g = S (live (js.set g n [])).
Proof.
  unfold live. induction g as [| [k v] g IH]; simpl; [discriminate |].
  destruct (String.eqb k n) eqn:E.
  - intros H. inversion H; subst. reflexivity.
  - intros H. simpl. destruct (Nat.ltb 0 (List.length v)); simpl;
      now rewrite (IH H).
Qed.

Lemma visit_all_live (nodes : list string) (st st' : algos.LoopState) :
  algos.visit_all nodes st = Ok st' ->
  live (algos.st_cycles st') <= live (algos.st_cycles st)
  /\ (algos.st_changed st' = true ->
      algos.st_changed st = true
      \/ live (algos.st_cycles st') < live (algos.st_cycles st)).
Proof.
  apply (visit_all_invariant
           (fun st' =>
              live (algos.st_cycles st') <= live (algos.st_cycles st)
              /\ (algos.st_changed st' = true ->
                  algos.st_changed st = true
                  \/ live (algos.st_cycles st') < live (algos.st_cycles st)))).
  - intros node st1 st2 [Hle _] (e & es & Hc & _ & _ & Hc' & _).
    rewrite Hc'. apply live_set in Hc. split; [lia | intros _; right; lia].
  - split; [lia | now left].
Qed.

Lemma while_changed_error (fuel : nat) (st : algos.LoopState) (e : Error) :
  live (algos.st_cycles st) < fuel ->
  algos.while_changed fuel st = Err e -> e = TypeError.
Proof.
  revert st. induction fuel as [| fuel IH]; intros st Hlt; [lia |]. simpl.
  destruct (algos.st_changed st); [| discriminate].
  destruct (algos.visit_all _ _) as [st1 | e1] eqn:Ev; cbn [bind].
  - destruct (visit_all_live _ _ _ Ev) as [Hle Hch].
    cbn [algos.st_cycles algos.st_changed algos.with_changed] in Hle, Hch.
    destruct (algos.st_changed st1) eqn:Hch1.
    + apply IH. destruct (Hch eq_refl) as [H | H]; [discriminate | lia].
    + destruct fuel; simpl; rewrite Hch1; discriminate.
  - intros H. inversion H; subst. now apply visit_all_error in Ev.
Qed.

(** The edges of a graph as a relation, and the two conditions on the
    arguments of [findCycles] that [validateInitialCycles] establishes:
    every node that can be looked up in [inGraph] is there, and [inGraph]
    lists [m] under [n] as often as [outGraph] lists [n] under [m]. *)
Definition edge (g : algos.Graph) (m n : string) : Prop :=
  In n (edges_of g m).



Definition transposed (inGraph outGraph : algos.Graph) : Prop :=
  forall m n,
    count_occ string_dec (edges_of inGraph n) m
    = count_occ string_dec (edges_of outGraph m) n.



Section FindCycles.
Variables inGraph outGraph : algos.Graph.

(** The state in which the loop of [findCycles] starts. *)
Definition findCycles_start : algos.LoopState :=
  {| algos.st_inGraph := inGraph;
     algos.st_outGraph := outGraph;
     algos.st_cycles := algos.copy_graph outGraph;
     algos.st_deps := [];
     algos.st_changed := true |}.

(** What every pass of the loop keeps. *)
Record shape (st : algos.LoopState) : Prop := {
  shape_out : algos.st_outGraph st = outGraph;
  shape_keys : js.keys (algos.st_cycles st) = js.keys outGraph;
  shape_in_keys : js.keys (algos.st_inGraph st) = js.keys inGraph;
  shape_nodup : NoDup (algos.st_deps st);
  shape_trimmed :
    forall n, In n (algos.st_deps st) ->
      js.get (algos.st_cycles st) n = Some [] /\ edges_of outGraph n <> [];
  shape_kept :
    forall n, ~ In n (algos.st_deps st) ->
      js.get (algos.st_cycles st) n = js.get outGraph n;
  shape_in :
    forall n m,
      count_occ string_dec (edges_of (algos.st_inGraph st) n) m
      <= count_occ string_dec (edges_of inGraph n) m
}.

(** [inGraph] stays the transpose of the working copy [cycles]. *)
Definition balanced (st : algos.LoopState) : Prop :=
  forall m n,
    count_occ string_dec (edges_of (algos.st_inGraph st) n) m
    = count_occ string_dec (edges_of (algos.st_cycles st) m) n.

(** A node enters [deps] after all the nodes that have an edge to it. *)
Definition ordered (st : algos.LoopState) : Prop :=
  forall d1 x d2 n,
    algos.st_deps st = d1 ++ x :: d2 ->
    In x (edges_of outGraph n) -> In n d1.

Lemma findCycles_final (r : algos.CycleResult) (g : algos.Graph * algos.Graph) :
  algos.findCycles inGraph outGraph = Ok (r, g) ->
  exists st,
    algos.while_changed (S (List.length outGraph)) findCycles_start = Ok st
    /\ r = {| algos.hasCycle :=
                existsb (fun x => Nat.ltb 0 (List.length x))
                  (js.values (algos.st_cycles st));
              algos.cycles := algos.st_cycles st;
              algos.initialPath := rev (algos.st_deps st) |}
    /\ g = (algos.st_inGraph st, algos.st_outGraph st).
Proof.
  unfold algos.findCycles. fold findCycles_start.
  rewrite copy_graph_id at 1.
  destruct (algos.while_changed _ _) as [st |]; cbn [bind]; [| discriminate].
  intros H. inversion H. exists st. auto.
Qed.

Lemma shape_start : shape findCycles_start.
Proof.
  split; cbn; rewrite ?copy_graph_id; auto.
  - constructor.
  - intros n [].
Qed.

Lemma shape_with_changed (st : algos.LoopState) (b : bool) :
  shape st -> shape (algos.with_changed st b).
Proof. intros []. split; assumption. Qed.

Lemma shape_peels (node : string) (st st' : algos.LoopState) :
  shape st -> peels node st st' -> shape st'.
Proof.
  intros [Ho Hk Hik Hnd Ht Hkept Hin]
         (e & es & Hc & Hi & Ho' & Hc' & Hd & Hch & Hk' & Hcnt).
  assert (Hnot : ~ In node (algos.st_deps st)).
  { intros H. destruct (Ht _ H) as [H1 _]. congruence. }
  split.
  - congruence.
  - rewrite Hc', keys_set_in; [exact Hk | apply get_in_keys; eauto].
  - congruence.
  - rewrite Hd. apply NoDup_app; [exact Hnd | repeat constructor; intros [] |].
    intros x Hx [<- | []]. contradiction.
  - intros n Hn. rewrite Hd in Hn. apply in_app_iff in Hn.
    destruct Hn as [Hn | [<- | []]].
    + destruct (Ht n Hn) as [H1 H2]. split; [| exact H2].
      rewrite Hc', get_set_other; [exact H1 | intros ->; contradiction].
    + split; [rewrite Hc'; apply get_set_same |].
      rewrite (Hkept _ Hnot) in Hc. rewrite (edges_of_get _ _ _ Hc).
      discriminate.
  - intros n Hn. rewrite Hd, in_app_iff in Hn.
    rewrite Hc', get_set_other; [apply Hkept; tauto |].
    intros ->. apply Hn. right. now left.
  - intros n m. rewrite Hcnt.
    destruct (string_dec m node) as [-> | _];
      [specialize (Hin n node); lia | apply Hin].
Qed.

Lemma balanced_peels (node : string) (st st' : algos.LoopState) :
  balanced st -> peels node st st' -> balanced st'.
Proof.
  intros Hb (e & es & Hc & Hi & Ho' & Hc' & Hd & Hch & Hk' & Hcnt) m n.
  rewrite Hcnt, Hc', edges_of_set.
  destruct (string_dec m node) as [-> | Hne].
  - rewrite String.eqb_refl, (Hb node n), (edges_of_get _ _ _ Hc).
    simpl (count_occ string_dec [] n). lia.
  - assert (String.eqb node m = false) as ->
      by (apply String.eqb_neq; congruence).
    apply Hb.
Qed.

Lemma ordered_peels (node : string) (st st' : algos.LoopState) :
  shape st -> balanced st -> ordered st -> peels node st st' -> ordered st'.
Proof.
  intros Hs Hb Hord (e & es & Hc & Hi & Ho' & Hc' & Hd & Hch & Hk' & Hcnt)
         d1 x d2 n Hsplit Hedge.
  rewrite Hd in Hsplit.
  destruct (exists_last (l := x :: d2)) as (d2' & y & Hlast); [discriminate |].
  rewrite Hlast, app_assoc in Hsplit.
  apply app_inj_tail in Hsplit. destruct Hsplit as [Hdeps <-].
  destruct d2' as [| x' d2'].
  - simpl in Hlast. inversion Hlast; subst x d2.
    rewrite app_nil_r in Hdeps. subst d1.
    destruct (in_dec string_dec n (algos.st_deps st)) as [Hin | Hout];
      [exact Hin | exfalso].
    pose proof (Hb n node) as Hbal.
    rewrite (edges_of_get _ _ _ Hi) in Hbal. simpl in Hbal.
    unfold edges_of in Hbal. rewrite (shape_kept _ Hs n Hout) in Hbal.
    fold (edges_of outGraph n) in Hbal.
    apply (count_occ_In string_dec) in Hedge. lia.
  - simpl in Hlast. inversion Hlast; subst x'.
    assert (In n d1) as Hin; [| exact Hin].
    apply (Hord d1 x d2' n); [| exact Hedge].
    rewrite Hdeps. now destruct d2.
Qed.

(** The three invariants together. *)
Definition trimming (st : algos.LoopState) : Prop :=
  shape st /\ balanced st /\ ordered st.

Lemma trimming_final (st : algos.LoopState) :
  transposed inGraph outGraph ->
  algos.while_changed (S (List.length outGraph)) findCycles_start = Ok st ->
  trimming st.
Proof.
  intros Ht. apply (while_changed_invariant trimming).
  - intros st0 (Hs & Hb & Ho). split; [now apply shape_with_changed |].
    split; [exact Hb | exact Ho].
  - intros node st0 st1 (Hs & Hb & Ho) Hp. split; [eapply shape_peels; eauto |].
    split; [eapply balanced_peels; eauto | eapply ordered_peels; eauto].
  - split; [exact shape_start |]. split.
    + intros m n. cbn. rewrite copy_graph_id. apply Ht.
    + intros d1 x d2 n H. cbn in H. now destruct d1.
Qed.


(** A set of nodes each of which has an incoming edge from the set is
    never trimmed. *)
Section Closed.
Variable member : string -> Prop.
Hypothesis member_closed :
  forall n, member n -> exists m, member m /\ In m (edges_of inGraph n).




End Closed.



End FindCycles.

(** X12: the loop of [findCycles] ends: every pass that sets [changed]
    empties the edge list of at least one node, so the call fails only
    where the code reads [inGraph[node].length] or
    [inGraph[edge].indexOf] of a node that [inGraph] does not have, which
    is a [TypeError]. *)
Theorem findCycles_raises_only_TypeError
    (inGraph outGraph : algos.Graph) (e : Error) :
  algos.findCycles inGraph outGraph = Err e -> e = TypeError.
Proof.
  unfold algos.findCycles.
  destruct (algos.while_changed _ _) as [st | e0] eqn:Ew; cbn [bind];
    [discriminate |].
  intros H. inversion H; subst e0.
  apply (while_changed_error _ _ _) in Ew; [exact Ew |].
  cbn [algos.st_cycles]. pose proof (live_le (algos.copy_graph outGraph)). lia.
Qed.

Lemma findCycles_raises_only_TypeError_witness :
  algos.findCycles [] [("a", ["b"])] = Err TypeError
  /\ TypeError = TypeError.
Proof.
  split; [vm_compute; reflexivity |].
  apply (findCycles_raises_only_TypeError [] [("a", ["b"])]).
  vm_compute. reflexivity.
Defined.














Lemma ordered_path (inGraph outGraph : algos.Graph) (st : algos.LoopState)
    (l1 l2 : list string) (x n : string) :
  transposed inGraph outGraph ->
  algos.while_changed (S (List.length outGraph))
    (findCycles_start inGraph outGraph) = Ok st ->
  rev (algos.st_deps st) = l1 ++ x :: l2 ->
  edge outGraph n x ->
  In n l2.
Proof.
  intros Ht Hw Hpath Hedge.
  destruct (trimming_final _ _ _ Ht Hw) as (_ & _ & Hord).
  apply in_rev. apply (Hord (rev l2) x (rev l1) n); [| exact Hedge].
  rewrite <- (rev_involutive (algos.st_deps st)), Hpath, rev_app_distr.
  simpl. now rewrite <- app_assoc.
Qed.

(** X17: a node stands in [initialPath] before every node that has an
    edge to it, and all of these are on the path. *)
Theorem initialPath_before_referrers
    (inGraph outGraph : algos.Graph)
    (r : algos.CycleResult) (g : algos.Graph * algos.Graph)
    (l1 l2 : list string) (x n : string) :
  transposed inGraph outGraph ->
  algos.findCycles inGraph outGraph = Ok (r, g) ->
  algos.initialPath r = l1 ++ x :: l2 ->
  edge outGraph n x ->
  In n l2.
Proof.
  intros Ht H Hpath Hedge.
  destruct (findCycles_final _ _ _ _ H) as (st & Hw & -> & _).
  now apply (ordered_path inGraph outGraph st l1 l2 x n).
Qed.

Lemma initialPath_before_referrers_witness : In "a" ["a"].
Proof.
  apply (initialPath_before_referrers
           [("a", []); ("b", ["a"]); ("c", ["a"; "b"])]
           [("a", ["b"; "c"]); ("b", ["c"]); ("c", [])]
           {| algos.hasCycle := false;
              algos.cycles := [("a", []); ("b", []); ("c", [])];
              algos.initialPath := ["b"; "a"] |}
           ([("a", []); ("b", []); ("c", [])],
            [("a", ["b"; "c"]); ("b", ["c"]); ("c", [])])
           [] ["a"] "b" "a").
  - intros m n. unfold edges_of. cbn [js.get].
    destruct (String.eqb_spec "a" n), (String.eqb_spec "b" n),
             (String.eqb_spec "c" n),
             (String.eqb_spec "a" m), (String.eqb_spec "b" m),
             (String.eqb_spec "c" m);
      subst; try discriminate; cbn [count_occ];
      repeat match goal with
             | |- context [string_dec ?x ?y] => destruct (string_dec x y)
             end; congruence.
  - vm_compute. reflexivity.
  - reflexivity.
  - unfold edge, edges_of. cbn. now left.
Defined.

(** ** The references among initial values *)





















(** The model of "a(b)", "b(c)", "c(3)" and "d(a + c)". *)
Definition reference_chain_model : Model.t :=
  Eval vm_compute in
    match parse.parse "a(b)
b(c)
c(3)
d(a + c)" with
    | Ok m => m
    | Err _ => Model.new ""
    end.


(** ** The initial state *)


(** The stocks of [seq] initialized one after the other. *)
Fixpoint init_all (seq : list Stock.t) (state : StateMap) : res StateMap :=
  match seq with
  | [] => Ok state
  | s :: rest => state' <- State.init_stock s state ;; init_all rest state'
  end.




Lemma init_all_app (l1 l2 : list Stock.t) (state : StateMap) :
  init_all (l1 ++ l2) state
  = (state' <- init_all l1 state ;; init_all l2 state').
Proof.
  revert state. induction l1 as [| s l1 IH]; intros state; simpl;
    [reflexivity |].
  destruct (State.init_stock s state); cbn [bind]; [apply IH | reflexivity].
Qed.












(** ** The models that [parse] builds *)

(** A formula as the constructor leaves it: it has passed [validate],
    and its tokens have the kinds of the lexer. *)
Definition checked (f : Formula.t) : Prop :=
  Formula.validate f = Ok tt
  /\ forallb lexed_kinds (Formula.lexed f) = true.

(** The formulas of the model are checked and its flows hold stocks of
    the model. *)
Record built (m : Model.t) : Prop := {
  built_initial :
    forall s, In s (Model.stocks m) -> checked (Stock.initial s);
  built_maximum :
    forall s, In s (Model.stocks m) -> checked (Stock.maximum s);
  built_rate :
    forall f, In f (Model.flows m) -> checked (RateBase.formula (Flow.rate f));
  built_source :
    forall f, In f (Model.flows m) ->
      Flow.source f < List.length (Model.stocks m);
  built_destination :
    forall f, In f (Model.flows m) ->
      Flow.destination f < List.length (Model.stocks m)
}.

(** The parameters of a stock or flow token are formulas of the lexer. *)
Definition lexed_params (t : Token) : Prop :=
  match t with
  | Caller _ _ params => forallb (forallb lexed_kinds) params = true
  | Simple _ _ => True
  end.

(** The nested groups of a token tree all pass [validate]. *)
Fixpoint groups_valid (token : Leaf) : bool :=
  match token with
  | SimpleToken _ _ => true
  | SubFormula tokens =>
      match Formula.validate_tokens tokens with
      | Ok _ => forallb groups_valid tokens
      | Err _ => false
      end
  end.

Lemma evaluable_lexed (token : Leaf) :
  lexed_kinds token = true -> groups_valid token = true ->
  evaluable token = true.
Proof.
  induction token as [kind val | tokens IH] using Leaf_ind'; simpl.
  - auto.
  - intros Hk Hg.
    destruct (Formula.validate_tokens tokens); [| discriminate].
    rewrite forallb_forall in *. intros t Ht.
    rewrite Forall_forall in IH. auto.
Qed.

Lemma lexFormula_kinds (txt : string) (tokens : FormulaToken) :
  lexFormula txt = Ok tokens -> forallb lexed_kinds tokens = true.
Proof.
  unfold lexFormula. now apply lexFormula_loop_kinds.
Qed.

Lemma mapM_lexFormula_kinds (txts : list string) (params : ParamsToken) :
  mapM lexFormula txts = Ok params ->
  forallb (forallb lexed_kinds) params = true.
Proof.
  revert params. induction txts as [| txt txts IH]; intros params; simpl.
  - intros H. inversion H. reflexivity.
  - destruct (lexFormula txt) as [tokens |] eqn:E; cbn [bind];
      [| discriminate].
    destruct (mapM lexFormula txts) as [rest |]; cbn [bind]; [| discriminate].
    intros H. inversion H; subst. simpl.
    now rewrite (lexFormula_kinds _ _ E), (IH rest).
Qed.

Lemma lexParameters_kinds (txt : string) (params : ParamsToken) :
  lexParameters txt = Ok params ->
  forallb (forallb lexed_kinds) params = true.
Proof.
  unfold lexParameters. destruct (String.eqb txt "").
  - intros H. inversion H. reflexivity.
  - destruct (_ && _); [apply mapM_lexFormula_kinds | discriminate].
Qed.

Lemma lexCaller_kinds (kind : TokenKind) (txt : string) (t : Token) :
  lexCaller kind txt = Ok t -> lexed_params t.
Proof.
  unfold lexCaller. destruct (LEGAL_STOCK_NAME _) as [name |]; [| discriminate].
  destruct (_ && _); [discriminate |].
  destruct (lexParameters _) as [params |] eqn:E; cbn [bind]; [| discriminate].
  intros H. inversion H; subst. now apply lexParameters_kinds in E.
Qed.

Lemma lexStock_kinds (txt : string) (t : Token) :
  lexStock txt = Ok t -> lexed_params t.
Proof.
  unfold lexStock. destruct (_ && _); [| apply lexCaller_kinds].
  intros H. inversion H. reflexivity.
Qed.

Lemma lexFlow_kinds (txt : string) (t : Token) :
  lexFlow txt = Ok t -> lexed_params t.
Proof.
  unfold lexFlow.
  assert (Hp : forall p,
             (params <- lexParameters p ;; Ok (Caller TOKEN_FLOW "" params))
             = Ok t -> lexed_params t).
  { intros p. destruct (lexParameters p) as [params |] eqn:E; cbn [bind];
      [| discriminate].
    intros H. inversion H; subst. now apply lexParameters_kinds in E. }
  destruct (LEGAL_STOCK_NAME _) as [name |]; [| apply Hp].
  destruct (_ && _); [apply lexCaller_kinds | apply Hp].
Qed.

Definition lexed_lines (s : LexState) : Prop :=
  Forall lexed_params (ls_line s)
  /\ Forall (fun l => Forall lexed_params (lineTokens l)) (ls_tokens s).

Lemma push_lexed_kinds (lexX : string -> res Token) (line line' : list Token)
    (charBuff : string) :
  (forall txt t, lexX txt = Ok t -> lexed_params t) ->
  Forall lexed_params line ->
  push_lexed lexX line charBuff = Ok line' ->
  Forall lexed_params line'.
Proof.
  intros HX Hl. unfold push_lexed. destruct (is_blank charBuff).
  - intros H. inversion H. now subst.
  - destruct (lexX charBuff) as [t |] eqn:E; cbn [bind]; [| discriminate].
    intros H. inversion H; subst. apply Forall_app. split; [exact Hl |].
    constructor; [eauto | constructor].
Qed.

Lemma lex_tail_kinds (c : ascii) (s s' : LexState) :
  lexed_lines s -> lex_tail c s = Ok s' -> lexed_lines s'.
Proof.
  intros [Hl Ht]. unfold lex_tail. destruct (Ascii.eqb c NEWLINE).
  - destruct (negb _); [discriminate |].
    intros H. inversion H; subst. split; cbn; [constructor |].
    destruct (ls_line s) as [| t0 line]; [exact Ht |].
    apply Forall_app. split; [exact Ht |]. constructor; [exact Hl | constructor].
  - destruct (_ && _); intros H; inversion H; subst; split; assumption.
Qed.

Lemma lex_step_kinds (c : ascii) (s s' : LexState) :
  lexed_lines s -> lex_step c s = Ok s' -> lexed_lines s'.
Proof.
  intros Hs. pose proof Hs as [Hl Ht]. unfold lex_step.
  assert (Hpush : forall lexX k,
             (forall txt t, lexX txt = Ok t -> lexed_params t) ->
             (line <- push_lexed lexX (ls_line s) (ls_charBuff s) ;;
              Ok (with_line s line (str WHITESPACE) k)) = Ok s' ->
             lexed_lines s').
  { intros lexX k HX.
    destruct (push_lexed _ _ _) as [line |] eqn:E; cbn [bind]; [| discriminate].
    intros H. inversion H; subst. split; cbn; [| exact Ht].
    eapply push_lexed_kinds; eauto. }
  assert (Hpush_tail : forall lexX k,
             (forall txt t, lexX txt = Ok t -> lexed_params t) ->
             (line <- push_lexed lexX (ls_line s) (ls_charBuff s) ;;
              lex_tail c (with_line s line (str WHITESPACE) k)) = Ok s' ->
             lexed_lines s').
  { intros lexX k HX.
    destruct (push_lexed _ _ _) as [line |] eqn:E; cbn [bind]; [| discriminate].
    apply lex_tail_kinds. split; cbn; [| exact Ht].
    eapply push_lexed_kinds; eauto. }
  assert (Hstock : forall sep k,
             (t <- lexStock (ls_charBuff s) ;;
              Ok (with_line s (ls_line s ++ [t; Simple sep (str c)])
                    (str WHITESPACE) k)) = Ok s' ->
             lexed_lines s').
  { intros sep k.
    destruct (lexStock _) as [t |] eqn:E; cbn [bind]; [| discriminate].
    intros H. inversion H; subst. split; cbn; [| exact Ht].
    apply Forall_app. split; [exact Hl |].
    constructor; [now apply lexStock_kinds in E |].
    constructor; [exact I | constructor]. }
  destruct (_ && _ && _).
  { apply lex_tail_kinds. split; assumption. }
  destruct (TokenKind_eqb (ls_parsing s) TOKEN_COMMENT).
  { destruct (Ascii.eqb c NEWLINE); apply lex_tail_kinds; [| exact Hs].
    split; cbn; [| exact Ht]. apply Forall_app. split; [exact Hl |].
    constructor; [exact I | constructor]. }
  destruct (TokenKind_eqb (ls_parsing s) TOKEN_STOCK).
  { destruct (Ascii.eqb c COMMENT); [apply Hpush, lexStock_kinds |].
    destruct (Ascii.eqb c FLOW_DIRECTION); [apply Hstock |].
    destruct (Ascii.eqb c FLOW_DELIMITER); [apply Hstock |].
    destruct (Ascii.eqb c NEWLINE); [apply Hpush_tail, lexStock_kinds |].
    now apply lex_tail_kinds. }
  destruct (TokenKind_eqb (ls_parsing s) TOKEN_FLOW).
  { destruct (Ascii.eqb c COMMENT); [apply Hpush, lexFlow_kinds |].
    destruct (Ascii.eqb c NEWLINE); [apply Hpush_tail, lexFlow_kinds |].
    now apply lex_tail_kinds. }
  now apply lex_tail_kinds.
Qed.

Lemma lex_kinds (txt : string) (lines : LinesToken) :
  lex txt = Ok lines ->
  Forall (fun l => Forall lexed_params (lineTokens l)) lines.
Proof.
  unfold lex.
  assert (Hloop : forall cs s s',
             lexed_lines s -> lex_loop cs s = Ok s' -> lexed_lines s').
  { induction cs as [| c cs IH]; intros s s' Hs; simpl.
    - intros H. inversion H. now subst.
    - destruct (lex_step c s) as [s1 |] eqn:E; cbn [bind]; [| discriminate].
      apply IH. eapply lex_step_kinds; eauto. }
  destruct (lex_loop _ _) as [s |] eqn:E; cbn [bind]; [| discriminate].
  intros H. inversion H; subst. apply (Hloop _ _ _) in E; [apply E |].
  split; constructor.
Qed.

Lemma checked_default_initial : checked default_initial.
Proof. split; reflexivity. Qed.

Lemma checked_default_maximum : checked default_maximum.
Proof. split; reflexivity. Qed.

Lemma new_of_token_checked (token : FormulaToken) (d : js.number)
    (f : Formula.t) :
  forallb lexed_kinds token = true ->
  Formula.new (DefToken token) d = Ok f -> checked f.
Proof.
  intros Hk. unfold Formula.new. cbn [bind].
  destruct (Formula.validate _) as [[] |] eqn:E; cbn [bind]; [| discriminate].
  intros H. inversion H; subst. split; assumption.
Qed.

Lemma update_at_length (stocks : list Stock.t) (ref : nat) (s : Stock.t) :
  List.length (parse.update_at stocks ref s) = List.length stocks.
Proof.
  revert ref. induction stocks as [| x rest IH]; intros [| ref]; simpl; auto.
Qed.

Lemma update_at_In (stocks : list Stock.t) (ref : nat) (s x : Stock.t) :
  In x (parse.update_at stocks ref s) -> x = s \/ In x stocks.
Proof.
  revert ref. induction stocks as [| y rest IH]; intros [| ref]; simpl;
    try tauto.
  - intros [<- | H]; auto.
  - intros [<- | H]; [auto |]. destruct (IH _ H); auto.
Qed.

(** What [buildStock] and [buildFlow] keep of a model, and what they
    return: a built model in which the stocks that were there are where
    they were. *)
Lemma built_with_stocks (m : Model.t) (stocks : list Stock.t) :
  built m ->
  List.length (Model.stocks m) <= List.length stocks ->
  (forall s, In s stocks ->
     checked (Stock.initial s) /\ checked (Stock.maximum s)) ->
  built (Model.with_stocks m stocks).
Proof.
  intros [Hi Hm Hr Hs Hd] Hlen Hnew.
  split; cbn [Model.with_stocks Model.stocks Model.flows].
  - intros s H. now apply Hnew.
  - intros s H. now apply Hnew.
  - exact Hr.
  - intros f H. specialize (Hs f H). lia.
  - intros f H. specialize (Hd f H). lia.
Qed.

Lemma built_push (m : Model.t) (s : Stock.t) :
  built m -> checked (Stock.initial s) -> checked (Stock.maximum s) ->
  built (Model.with_stocks m (Model.stocks m ++ [s])).
Proof.
  intros Hb Hi Hm. apply built_with_stocks; [exact Hb | |].
  - rewrite length_app. lia.
  - intros x Hx. apply in_app_iff in Hx. destruct Hx as [Hx | [<- | []]].
    + split; [now apply (built_initial _ Hb) | now apply (built_maximum _ Hb)].
    + now split.
Qed.

Lemma reuse_value_checked (name : string) (value default current : Formula.t)
    (r : option Formula.t) :
  parse.reuse_value name value default current = Ok r ->
  r = None \/ r = Some value.
Proof.
  unfold parse.reuse_value. destruct (negb _).
  - destruct (_ && _); [| discriminate]. intros H. inversion H. now right.
  - intros H. inversion H. now left.
Qed.

Lemma buildStock_built (m m' : Model.t) (token : Token) (ref : nat) :
  parse.buildStock m token = Ok (ref, m') ->
  lexed_params token ->
  built m ->
  built m'
  /\ ref < List.length (Model.stocks m')
  /\ List.length (Model.stocks m) <= List.length (Model.stocks m')
  /\ Model.flows m' = Model.flows m.
Proof.
  unfold parse.buildStock. destruct token as [kind val | kind name params];
    [discriminate |].
  intros H Hp Hb. cbn [lexed_params] in Hp.
  destruct (TokenKind_eqb kind TOKEN_STOCK_INFINITE).
  { rewrite infiniteStock_pushes in H. inversion H; subst.
    cbn [Model.with_stocks Model.stocks Model.flows]. rewrite length_app.
    cbn [List.length].
    split; [| split; [lia | split; [lia | reflexivity]]].
    apply built_push; [exact Hb | |]; exact checked_default_maximum. }
  rewrite new_default_initial, new_default_maximum in H. cbn [bind] in H.
  destruct (match params with
            | p0 :: _ => Formula.new (DefToken p0) 0%float
            | [] => Ok default_initial
            end) as [initial |] eqn:Ei; cbn [bind] in H; [| discriminate].
  destruct (match params with
            | _ :: p1 :: _ => Formula.new (DefToken p1) 0%float
            | _ => Ok default_maximum
            end) as [maximum |] eqn:Em; cbn [bind] in H; [| discriminate].
  assert (Hci : checked initial).
  { destruct params as [| p0 ps].
    - inversion Ei. exact checked_default_initial.
    - simpl in Hp. apply andb_true_iff in Hp.
      now apply (new_of_token_checked p0 0%float). }
  assert (Hcm : checked maximum).
  { destruct params as [| p0 [| p1 ps]];
      try (inversion Em; exact checked_default_maximum).
    simpl in Hp. apply andb_true_iff in Hp. destruct Hp as [_ Hp].
    apply andb_true_iff in Hp. now apply (new_of_token_checked p1 0%float). }
  clear Ei Em Hp.
  destruct (Model.getStockRef m name) as [r |].
  - unfold Flow.deref in H.
    destruct (nth_error (Model.stocks m) r) as [exists_ |] eqn:En;
      cbn [bind] in H; [| discriminate].
    assert (He : In exists_ (Model.stocks m)) by now apply nth_error_In in En.
    assert (Hr : r < List.length (Model.stocks m)).
    { apply nth_error_Some. congruence. }
    destruct (parse.reuse_value name initial default_initial
                (Stock.initial exists_)) as [ni |] eqn:E1; cbn [bind] in H;
      [| discriminate].
    match type of H with context [parse.reuse_value ?a ?b ?c ?d] =>
      destruct (parse.reuse_value a b c d) as [nm |] eqn:E2
    end; cbn [bind] in H; [| discriminate].
    inversion H; subst ref m'.
    cbn [Model.with_stocks Model.stocks Model.flows].
    rewrite update_at_length.
    split; [| split; [exact Hr | split; [lia | reflexivity]]].
    apply built_with_stocks; [exact Hb | rewrite update_at_length; lia |].
    intros s Hs. apply update_at_In in Hs. destruct Hs as [-> | Hs].
    + apply reuse_value_checked in E1, E2.
      pose proof (built_initial _ Hb _ He) as Hi0.
      pose proof (built_maximum _ Hb _ He) as Hm0.
      destruct E1 as [-> | ->], E2 as [-> | ->]; cbn; now split.
    + split; [now apply (built_initial _ Hb) | now apply (built_maximum _ Hb)].
  - unfold Model.stock, Stock.new in H. cbn [bind] in H.
    unfold Model.push_stock in H. inversion H; subst ref m'.
    cbn [Model.with_stocks Model.stocks Model.flows]. rewrite length_app.
    cbn [List.length].
    split; [| split; [lia | split; [lia | reflexivity]]].
    now apply built_push.
Qed.

Lemma buildFlow_built (m m' : Model.t) (src dest : nat) (token : Token) :
  parse.buildFlow m src dest token = Ok m' ->
  lexed_params token ->
  built m ->
  src < List.length (Model.stocks m) ->
  dest < List.length (Model.stocks m) ->
  built m' /\ Model.stocks m' = Model.stocks m.
Proof.
  unfold parse.buildFlow. destruct token as [kind val | kind classStr params];
    [discriminate |].
  intros H Hp [Hi Hm Hr Hs Hd] Hsrc Hdest. cbn [lexed_params] in Hp.
  match type of H with (bind ?c _ = _) =>
    destruct c as [rateClass |]
  end; cbn [bind] in H; [| discriminate].
  destruct params as [| p0 ps]; [discriminate |].
  simpl in Hp. apply andb_true_iff in Hp. destruct Hp as [Hp _].
  unfold RateBase.new in H.
  destruct (Formula.new (DefToken p0) 0%float) as [f |] eqn:Ef;
    cbn [bind] in H; [| discriminate].
  apply (new_of_token_checked p0 0%float f Hp) in Ef.
  unfold Model.flow, Flow.new in H.
  destruct (Flow.deref (Model.stocks m) src) as [s |]; cbn [bind] in H;
    [| discriminate].
  destruct (RateBase.validateSource _ s) as [[] |]; cbn [bind] in H;
    [| discriminate].
  inversion H; subst m'. split; [| reflexivity].
  split; cbn [Model.with_flows Model.stocks Model.flows]; auto.
  - intros x Hx. apply in_app_iff in Hx.
    destruct Hx as [Hx | [<- | []]]; [now apply Hr | exact Ef].
  - intros x Hx. apply in_app_iff in Hx.
    destruct Hx as [Hx | [<- | []]]; [now apply Hs | exact Hsrc].
  - intros x Hx. apply in_app_iff in Hx.
    destruct Hx as [Hx | [<- | []]]; [now apply Hd | exact Hdest].
Qed.

Definition held (m : Model.t) (stock : option nat) : Prop :=
  match stock with
  | Some ref => ref < List.length (Model.stocks m)
  | None => True
  end.

Lemma parse_line_built (line : list Token) :
  forall (m m' : Model.t) (firstStock secondStock : option nat),
    parse.parse_line m line firstStock secondStock = Ok m' ->
    Forall lexed_params line ->
    built m -> held m firstStock -> held m secondStock ->
    built m'.
Proof.
  induction line as [| t rest IH]; intros m m' fs ss H Hl Hb Hf Hs.
  { inversion H. now subst. }
  cbn [parse.parse_line] in H. inversion Hl as [| ? ? Ht Hrest]; subst.
  assert (Hstock : forall fs' ss',
             ('(s, m1) <- parse.buildStock m t ;;
              parse.parse_line m1 rest (fs' s) (ss' s)) = Ok m' ->
             (forall s m1, held m1 (Some s) ->
                List.length (Model.stocks m) <= List.length (Model.stocks m1) ->
                held m1 (fs' s) /\ held m1 (ss' s)) ->
             built m').
  { intros fs' ss' H' Hheld.
    destruct (parse.buildStock m t) as [[s m1] |] eqn:E; cbn [bind] in H';
      [| discriminate].
    destruct (buildStock_built _ _ _ _ E Ht Hb) as (Hb1 & Hs1 & Hlen & _).
    destruct (Hheld s m1 Hs1 Hlen) as [H1 H2].
    now apply (IH m1 m' (fs' s) (ss' s)). }
  destruct (parse.is_stock_token t).
  - destruct fs as [f |]; [destruct ss as [s |] |].
    + now apply (IH m m' (Some f) (Some s)).
    + apply (Hstock (fun _ => Some f) (fun s => Some s)); [exact H |].
      intros s m1 H1 Hlen. split; [| exact H1]. cbn in *. lia.
    + apply (Hstock (fun s => Some s) (fun _ => ss)); [exact H |].
      intros s m1 H1 Hlen. split; [exact H1 |].
      destruct ss as [s0 |]; cbn in *; [lia | exact I].
  - destruct (parse.is_flow_token t); [| now apply (IH m m' fs ss)].
    destruct fs as [f |]; [destruct ss as [s |] |];
      try now apply (IH m m' _ _ H).
    destruct (parse.buildFlow m f s t) as [m1 |] eqn:E; cbn [bind] in H;
      [| discriminate].
    destruct (buildFlow_built _ _ _ _ _ E Ht Hb Hf Hs) as [Hb1 Hst].
    apply (IH m1 m' (Some f) (Some s)); auto; cbn; now rewrite Hst.
Qed.

Lemma parse_lines_built (tokens : list LineToken) :
  forall (m m' : Model.t),
    parse.parse_lines m tokens = Ok m' ->
    Forall (fun l => Forall lexed_params (lineTokens l)) tokens ->
    built m -> built m'.
Proof.
  induction tokens as [| token rest IH]; intros m m' H Hl Hb.
  { inversion H. now subst. }
  cbn [parse.parse_lines] in H. inversion Hl as [| ? ? Ht Hrest]; subst.
  destruct (parse.parse_line m (lineTokens token) None None) as [m1 |] eqn:E;
    [| discriminate].
  apply (IH m1 m' H Hrest).
  now apply (parse_line_built _ _ _ _ _ E Ht Hb).
Qed.

Lemma parse_built (txt : string) (m : Model.t) :
  parse.parse txt = Ok m -> built m.
Proof.
  unfold parse.parse. destruct (lex txt) as [lines |] eqn:El; cbn [bind];
    [| discriminate].
  intros H. apply (parse_lines_built _ _ _ H); [now apply (lex_kinds txt) |].
  split; cbn; intros ? [].
Qed.

(** X21: in a model that [parse] returns, every initial, maximum and rate
    formula has passed [validate] and holds only tokens of the kinds
    that the lexer gives, and the source and the destination of every
    flow are stocks of the model. *)
Theorem parse_builds_checked_models (txt : string) (m : Model.t) :
  parse.parse txt = Ok m ->
  (forall s, In s (Model.stocks m) ->
     checked (Stock.initial s) /\ checked (Stock.maximum s))
  /\ forall f, In f (Model.flows m) ->
       checked (RateBase.formula (Flow.rate f))
       /\ Flow.source f < List.length (Model.stocks m)
       /\ Flow.destination f < List.length (Model.stocks m).
Proof.
  intros H. destruct (parse_built _ _ H) as [Hi Hm Hr Hs Hd].
  split; [intros s Hin; split; auto | intros f Hin; repeat split; auto].
  - now apply Hr.
  - now apply Hr.
Qed.

Lemma parse_builds_checked_models_witness :
  (forall s, In s (Model.stocks two_stock_model) ->
     checked (Stock.initial s) /\ checked (Stock.maximum s))
  /\ forall f, In f (Model.flows two_stock_model) ->
       checked (RateBase.formula (Flow.rate f))
       /\ Flow.source f < List.length (Model.stocks two_stock_model)
       /\ Flow.destination f < List.length (Model.stocks two_stock_model).
Proof.
  apply (parse_builds_checked_models "a(10) > b @ 5"). reflexivity.
Defined.

(** Every parenthesized group inside a formula of the model is itself a
    valid formula. *)
Definition groups_checked (m : Model.t) : Prop :=
  (forall s, In s (Model.stocks m) ->
     forallb groups_valid (Formula.lexed (Stock.initial s)) = true
     /\ forallb groups_valid (Formula.lexed (Stock.maximum s)) = true)
  /\ forall f, In f (Model.flows m) ->
       forallb groups_valid (Formula.lexed (RateBase.formula (Flow.rate f)))
       = true.

Lemma checked_well_formed (f : Formula.t) :
  checked f -> forallb groups_valid (Formula.lexed f) = true ->
  well_formed f.
Proof.
  intros [_ Hk] Hg. unfold well_formed. rewrite forallb_forall in *.
  intros t Ht. apply evaluable_lexed; auto.
Qed.

Lemma built_well_formed (m : Model.t) :
  built m -> groups_checked m -> model_well_formed m.
Proof.
  intros [Hi Hm Hr Hs Hd] [Hgs Hgf].
  split; rewrite Forall_forall; auto.
  - intros s H. apply checked_well_formed; [auto | now apply Hgs].
  - intros s H. apply checked_well_formed; [auto | now apply Hgs].
  - intros f H. apply checked_well_formed; [auto | now apply Hgf].
Qed.

(** X22: a model that [parse] returns and [validate] accepts runs: when
    every parenthesized group in its formulas is a valid formula,
    [run(n)] returns the initial state followed by one snapshot for each
    of the [n] rounds. *)
Theorem parsed_models_run (txt : string) (m m' : Model.t) (n : nat) :
  parse.parse txt = Ok m ->
  Model.validate m = Ok m' ->
  groups_checked m ->
  exists s0 rest,
    State.new m' = Ok s0
    /\ Model_run m n = Ok (State.snapshot s0 :: rest)
    /\ List.length rest = n.
Proof.
  intros Hp Hv Hg.
  pose proof (built_well_formed _ (parse_built _ _ Hp) Hg) as Hwf.
  pose proof (validate_well_formed m m' Hv Hwf) as Hwf'.
  destruct (State_new_total m' Hwf') as [s0 Hs0].
  destruct (run_rounds_total m' n Hwf' s0 [State.snapshot s0])
    as (rest & Hrun & Hlen).
  exists s0, rest. split; [exact Hs0 |].
  unfold Model_run. rewrite Hv. cbn [bind]. rewrite Hs0. cbn [bind].
  split; [exact Hrun | exact Hlen].
Qed.

Lemma parsed_models_run_witness :
  exists s0 rest,
    State.new fan_in_model = Ok s0
    /\ Model_run fan_in_model 2 = Ok (State.snapshot s0 :: rest)
    /\ List.length rest = 2.
Proof.
  apply (parsed_models_run "a(10) > c @ 5
b(10) > c @ 3" fan_in_model fan_in_model 2).
  - vm_compute. reflexivity.
  - vm_compute. reflexivity.
  - split.
    + intros s Hs. cbn in Hs.
      destruct Hs as [<- | [<- | [<- | []]]]; split; reflexivity.
    + intros f Hf. cbn in Hf. destruct Hf as [<- | [<- | []]]; reflexivity.
Defined.

(** A token that does not declare an infinite stock. *)
Definition plain (t : Token) : Prop :=
  match t with
  | Caller kind _ _ | Simple kind _ => kind <> TOKEN_STOCK_INFINITE
  end.

Lemma update_at_names (stocks : list Stock.t) (ref : nat) (s s0 : Stock.t) :
  nth_error stocks ref = Some s0 ->
  Stock.name s = Stock.name s0 ->
  map Stock.name (parse.update_at stocks ref s) = map Stock.name stocks.
Proof.
  revert ref. induction stocks as [| x rest IH]; intros [| ref]; simpl;
    try discriminate.
  - intros H E. inversion H; subst. now rewrite E.
  - intros H E. f_equal. now apply IH.
Qed.

Lemma buildStock_names (m m' : Model.t) (token : Token) (ref : nat) :
  parse.buildStock m token = Ok (ref, m') ->
  plain token ->
  NoDup (map Stock.name (Model.stocks m)) ->
  NoDup (map Stock.name (Model.stocks m')).
Proof.
  unfold parse.buildStock. destruct token as [kind val | kind name params];
    [discriminate |].
  intros H Hp Hnd. cbn [plain] in Hp.
  destruct (TokenKind_eqb kind TOKEN_STOCK_INFINITE) eqn:Ek.
  { apply TokenKind_eqb_eq in Ek. contradiction. }
  rewrite new_default_initial, new_default_maximum in H. cbn [bind] in H.
  destruct (match params with
            | p0 :: _ => Formula.new (DefToken p0) 0%float
            | [] => Ok default_initial
            end) as [initial |]; cbn [bind] in H; [| discriminate].
  destruct (match params with
            | _ :: p1 :: _ => Formula.new (DefToken p1) 0%float
            | _ => Ok default_maximum
            end) as [maximum |]; cbn [bind] in H; [| discriminate].
  unfold Model.getStockRef in H.
  destruct (Model.find_from (Model.stocks m) name 0) as [r |] eqn:Ef.
  - unfold Flow.deref in H.
    destruct (nth_error (Model.stocks m) r) as [exists_ |] eqn:En;
      cbn [bind] in H; [| discriminate].
    destruct (parse.reuse_value name initial default_initial
                (Stock.initial exists_)) as [ni |]; cbn [bind] in H;
      [| discriminate].
    match type of H with context [parse.reuse_value ?a ?b ?c ?d] =>
      destruct (parse.reuse_value a b c d) as [nm |]
    end; cbn [bind] in H; [| discriminate].
    inversion H; subst ref m'. cbn [Model.with_stocks Model.stocks].
    rewrite (update_at_names _ _ _ exists_ En); [exact Hnd |].
    destruct ni, nm; reflexivity.
  - apply find_from_none in Ef.
    unfold Model.stock, Stock.new in H. cbn [bind] in H.
    unfold Model.push_stock in H. inversion H; subst ref m'.
    cbn [Model.with_stocks Model.stocks]. rewrite map_app. cbn [map Stock.name].
    apply NoDup_app; [exact Hnd | repeat constructor; intros [] |].
    intros x Hx [<- | []]. contradiction.
Qed.

Lemma buildFlow_stocks (m m' : Model.t) (src dest : nat) (token : Token) :
  parse.buildFlow m src dest token = Ok m' ->
  Model.stocks m' = Model.stocks m.
Proof.
  unfold parse.buildFlow. destruct token as [kind val | kind classStr params];
    [discriminate |].
  intros H.
  match type of H with (bind ?c _ = _) =>
    destruct c as [rateClass |]
  end; cbn [bind] in H; [| discriminate].
  destruct params as [| p0 ps]; [discriminate |].
  destruct (RateBase.new rateClass (DefToken p0)) as [rate |];
    cbn [bind] in H; [| discriminate].
  unfold Model.flow in H.
  destruct (Flow.new _ _ _ _) as [f |]; cbn [bind] in H; [| discriminate].
  inversion H. reflexivity.
Qed.

Lemma parse_line_names (line : list Token) :
  forall (m m' : Model.t) (firstStock secondStock : option nat),
    parse.parse_line m line firstStock secondStock = Ok m' ->
    Forall plain line ->
    NoDup (map Stock.name (Model.stocks m)) ->
    NoDup (map Stock.name (Model.stocks m')).
Proof.
  induction line as [| t rest IH]; intros m m' fs ss H Hl Hnd.
  { inversion H. now subst. }
  cbn [parse.parse_line] in H. inversion Hl as [| ? ? Ht Hrest]; subst.
  assert (Hstock : forall fs' ss',
             ('(s, m1) <- parse.buildStock m t ;;
              parse.parse_line m1 rest (fs' s) (ss' s)) = Ok m' ->
             NoDup (map Stock.name (Model.stocks m'))).
  { intros fs' ss' H'.
    destruct (parse.buildStock m t) as [[s m1] |] eqn:E; cbn [bind] in H';
      [| discriminate].
    apply (IH m1 m' _ _ H' Hrest). now apply (buildStock_names _ _ _ _ E). }
  destruct (parse.is_stock_token t).
  - destruct fs as [f |]; [destruct ss as [s |] |].
    + now apply (IH m m' _ _ H).
    + now apply (Hstock (fun _ => Some f) (fun s => Some s)).
    + now apply (Hstock (fun s => Some s) (fun _ => ss)).
  - destruct (parse.is_flow_token t); [| now apply (IH m m' _ _ H)].
    destruct fs as [f |]; [destruct ss as [s |] |];
      try now apply (IH m m' _ _ H).
    destruct (parse.buildFlow m f s t) as [m1 |] eqn:E; cbn [bind] in H;
      [| discriminate].
    apply (IH m1 m' _ _ H Hrest). now rewrite (buildFlow_stocks _ _ _ _ _ E).
Qed.

Lemma parse_lines_names (tokens : list LineToken) :
  forall (m m' : Model.t),
    parse.parse_lines m tokens = Ok m' ->
    Forall (fun l => Forall plain (lineTokens l)) tokens ->
    NoDup (map Stock.name (Model.stocks m)) ->
    NoDup (map Stock.name (Model.stocks m')).
Proof.
  induction tokens as [| token rest IH]; intros m m' H Hl Hnd.
  { inversion H. now subst. }
  cbn [parse.parse_lines] in H. inversion Hl as [| ? ? Ht Hrest]; subst.
  destruct (parse.parse_line m (lineTokens token) None None) as [m1 |] eqn:E;
    [| discriminate].
  apply (IH m1 m' H Hrest). now apply (parse_line_names _ _ _ _ _ E).
Qed.

(** X23: in the model that [parse] builds from a text without infinite
    stocks, no two stocks have the same name: a stock named again is the
    stock that exists.  (An infinite stock is pushed without looking for
    its name.) *)
Theorem parse_keeps_names_distinct
    (txt : string) (lines : LinesToken) (m : Model.t) :
  lex txt = Ok lines ->
  Forall (fun l => Forall plain (lineTokens l)) lines ->
  parse.parse txt = Ok m ->
  NoDup (map Stock.name (Model.stocks m)).
Proof.
  intros Hl Hp. unfold parse.parse. rewrite Hl. cbn [bind]. intros H.
  apply (parse_lines_names _ _ _ H Hp). constructor.
Qed.

Lemma parse_keeps_names_distinct_witness :
  NoDup (map Stock.name (Model.stocks reference_chain_model)).
Proof.
  apply (parse_keeps_names_distinct "a(b)
b(c)
c(3)
d(a + c)"
           [ {| lineNumber := 1;
                lineTokens := [Caller TOKEN_STOCK "a"
                                 [[SimpleToken TOKEN_REFERENCE "b"]]] |};
             {| lineNumber := 2;
                lineTokens := [Caller TOKEN_STOCK "b"
                                 [[SimpleToken TOKEN_REFERENCE "c"]]] |};
             {| lineNumber := 3;
                lineTokens := [Caller TOKEN_STOCK "c"
                                 [[SimpleToken TOKEN_WHOLE "3"]]] |};
             {| lineNumber := 4;
                lineTokens := [Caller TOKEN_STOCK "d"
                                 [[SimpleToken TOKEN_REFERENCE "a";
                                   SimpleToken TOKEN_OP "+";
                                   SimpleToken TOKEN_REFERENCE "c"]]] |} ]).
  - vm_compute. reflexivity.
  - repeat constructor; discriminate.
  - vm_compute. reflexivity.
Defined.

Lemma infinite_stock_named_twice :
  exists m,
    parse.parse "[a] > b @ 1
[a] > c @ 1" = Ok m
    /\ map Stock.name (Model.stocks m) = ["a"; "b"; "a"; "c"].
Proof. eexists. split; vm_compute; reflexivity. Qed.

(** ** The values of a lexed formula *)

Fixpoint every (p : ascii -> bool) (s : string) : bool :=
  match s with
  | EmptyString => true
  | String c s' => p c && every p s'
  end.

(** The characters that [lexFormula] appends to [acc]. *)
Definition value_char (c : ascii) : bool :=
  negb (Ascii.eqb c START_PAREN) && negb (Ascii.eqb c END_PAREN)
  && negb (Ascii.eqb c WHITESPACE || Ascii.eqb c NEWLINE)
  && negb (OPERATIONS c).

(** A token tree in which operations are single operation characters,
    no other token holds an operation character, a parenthesis, a space
    or a newline, and a whole number is written with digits only. *)
Fixpoint unsigned (token : Leaf) : bool :=
  match token with
  | SimpleToken TOKEN_OP val =>
      match val with
      | String c EmptyString => OPERATIONS c
      | _ => false
      end
  | SimpleToken TOKEN_WHOLE val => every value_char val && all_digits val
  | SimpleToken _ val => every value_char val
  | SubFormula tokens => forallb unsigned tokens
  end.

Lemma every_app (p : ascii -> bool) (s t : string) :
  every p (s ++ t) = every p s && every p t.
Proof.
  induction s as [| c s IH]; simpl; [reflexivity |].
  now rewrite IH, andb_assoc.
Qed.

Lemma every_rev_string (p : ascii -> bool) (s acc : string) :
  every p (js.rev_string s acc) = every p s && every p acc.
Proof.
  revert acc. induction s as [| c s IH]; intros acc; simpl; [reflexivity |].
  rewrite IH. simpl. destruct (p c), (every p s), (every p acc); reflexivity.
Qed.

Lemma every_trimStart (p : ascii -> bool) (s : string) :
  every p s = true -> every p (js.trimStart s) = true.
Proof.
  induction s as [| c s IH]; simpl; [reflexivity |].
  intros H. destruct (js.is_space c); [| exact H].
  apply andb_true_iff in H. now apply IH.
Qed.

Lemma every_trim (p : ascii -> bool) (s : string) :
  every p s = true -> every p (js.trim s) = true.
Proof.
  intros H. unfold js.trim, js.trimEnd.
  rewrite every_rev_string, andb_true_r. apply every_trimStart.
  rewrite every_rev_string, andb_true_r. now apply every_trimStart.
Qed.

Lemma whole_without_sign (s : string) :
  every value_char s = true -> PARAM_WHOLE s = true -> all_digits s = true.
Proof.
  destruct s as [| c s]; [auto |]. simpl every. intros H.
  apply andb_true_iff in H. destruct H as [Hc _]. revert Hc.
  destruct c as [[] [] [] [] [] [] [] []]; try (intros _ H; exact H);
    discriminate.
Qed.

Lemma lexValue_unsigned (acc : string) :
  every value_char acc = true -> unsigned (lexValue acc) = true.
Proof.
  intros H. apply every_trim in H. unfold lexValue.
  destruct (String.eqb (js.trim acc) INFINITY); [exact H |].
  destruct (PARAM_WHOLE (js.trim acc)) eqn:Ew.
  - cbn [unsigned]. now rewrite H, whole_without_sign.
  - destruct (PARAM_DECIMAL (js.trim acc)); exact H.
Qed.

Lemma flush_unsigned (tokens : list Leaf) (acc : string) :
  forallb unsigned tokens = true ->
  every value_char acc = true ->
  forallb unsigned (flush tokens acc) = true.
Proof.
  intros Ht Ha. destruct acc as [| c acc]; [exact Ht |].
  cbn [flush]. rewrite forallb_app, Ht. cbn [forallb].
  now rewrite lexValue_unsigned.
Qed.

Lemma lexFormula_loop_unsigned (cs : string) :
  forall (groups : list (list Leaf)) (tokens : list Leaf) (acc : string)
         (result : FormulaToken),
    forallb (forallb unsigned) groups = true ->
    forallb unsigned tokens = true ->
    every value_char acc = true ->
    lexFormula_loop cs groups tokens acc = Ok result ->
    forallb unsigned result = true.
Proof.
  induction cs as [| c cs IH]; intros groups tokens acc result Hg Ht Ha H.
  - inversion H; subst. exact Ht.
  - cbn [lexFormula_loop] in H.
    destruct (Ascii.eqb c START_PAREN) eqn:E1.
    { apply (IH (tokens :: groups) [] acc); auto.
      cbn [forallb]. now rewrite Ht, Hg. }
    destruct (Ascii.eqb c END_PAREN) eqn:E2.
    { destruct groups as [| prevTokens groups']; [discriminate H |].
      cbn [forallb] in Hg. apply andb_true_iff in Hg. destruct Hg as [Hp Hg].
      apply (IH groups' (prevTokens ++ [SubFormula (flush tokens acc)]) "");
        auto.
      rewrite forallb_app, Hp. cbn [forallb unsigned].
      now rewrite flush_unsigned. }
    destruct (Ascii.eqb c WHITESPACE || Ascii.eqb c NEWLINE) eqn:E3.
    { apply (IH groups (flush tokens acc) ""); auto.
      now apply flush_unsigned. }
    destruct (OPERATIONS c) eqn:E4.
    { apply (IH groups (flush tokens acc ++ [SimpleToken TOKEN_OP (str c)]) "");
        auto.
      rewrite forallb_app, flush_unsigned by assumption.
      cbn [forallb unsigned str]. now rewrite E4. }
    apply (IH groups tokens (acc ++ str c)%string); auto.
    rewrite every_app, Ha. cbn [every str]. unfold value_char.
    now rewrite E1, E2, E3, E4.
Qed.

(** X24: [lexFormula] cuts the text at every operation character, so the
    optional minus sign of the pattern for whole numbers never matches:
    in the tokens it returns, at every depth, an operation is one
    operation character, no other token holds an operation character, a
    parenthesis, a space or a newline, and a whole number is written
    with digits only: a minus sign is always lexed as an operation. *)
Theorem lexFormula_never_reads_a_sign (txt : string) (tokens : FormulaToken) :
  lexFormula txt = Ok tokens -> forallb unsigned tokens = true.
Proof.
  unfold lexFormula. now apply lexFormula_loop_unsigned.
Qed.

Lemma lexFormula_never_reads_a_sign_witness :
  forallb unsigned
    [SimpleToken TOKEN_WHOLE "3"; SimpleToken TOKEN_OP "*";
     SubFormula [SimpleToken TOKEN_OP "-"; SimpleToken TOKEN_WHOLE "5"]]
  = true.
Proof.
  apply (lexFormula_never_reads_a_sign "3 * (-5)"). vm_compute. reflexivity.
Defined.

(** ** readable *)

(** [xs.join(sep)] *)
Fixpoint join (sep : string) (xs : list string) : string :=
  match xs with
  | [] => ""
  | [x] => x
  | x :: rest => (x ++ sep ++ join sep rest)%string
  end.

(** [readable] on a formula token and on its elements.  A token of two
    elements with a string for payload is what [SimpleToken] holds: on
    the kinds whose payload the code maps over, or destructures further,
    the call raises a [TypeError]; on the kind 'name', which no branch
    handles, the token is printed as the array it is. *)
Fixpoint readable (token : Leaf) : res string :=
  match token with
  | SimpleToken kind val =>
      match kind with
      | TOKEN_WHITESPACE => Ok (str WHITESPACE)
      | TOKEN_INFINITY => Ok INFINITY
      | TOKEN_LINES | TOKEN_FORMULA | TOKEN_LINE => Err TypeError
      | TOKEN_FLOW_DIRECTION | TOKEN_FLOW_DELIMITER | TOKEN_OP
      | TOKEN_COMMENT | TOKEN_DECIMAL | TOKEN_WHOLE | TOKEN_REFERENCE => Ok val
      | TOKEN_PARAMS => if String.eqb val "" then Ok "" else Err TypeError
      | TOKEN_STOCK_INFINITE =>
          Ok (str START_INFINITE_STOCK ++ val ++ str END_INFINITE_STOCK)%string
      | TOKEN_STOCK | TOKEN_FLOW => Err TypeError
      | TOKEN_NAME => Ok ("[unexpected token: 'name," ++ val ++ "']")%string
      end
  | SubFormula tokens =>
      texts <- mapM readable tokens ;; Ok (join " " texts)
  end.






































(** The text of a parenthesized group comes without its parentheses, and
    a reference can be empty: neither is read back. *)
Lemma readable_drops_parentheses :
  exists tokens,
    lexFormula "c * (a + b)" = Ok tokens
    /\ readable (SubFormula tokens) = Ok "c * a + b"
    /\ lexFormula "c * a + b" <> Ok tokens.
Proof.
  eexists. split; [vm_compute; reflexivity |].
  split; [vm_compute; reflexivity | discriminate].
Qed.
